(** * DoubleHashing: a fixed-capacity open-addressing table in Python

    A shallow embedding of [hash.py] (classes [HashEntry] and [HashTable])
    and the properties of its probe sequence, its two insertion
    algorithms, lookup and tombstone deletion.

    Python integers are [Z]; [%] is the floored modulus, which is
    [Z.modulo] for a divisor that is not zero and raises
    [ZeroDivisionError] for zero.  The table is a Python list whose cells
    are [None] or a [HashEntry] object; an entry is never shared between
    two cells (relocation copies the key and the value, not the object),
    so a cell is modelled by the value of its entry.  Methods run in a
    state and exception monad over the [HashTable] object. *)

From Stdlib Require Import ZArith Lia List Bool.
From Stdlib Require Import Znumtheory.
From stdpp Require Import base list.

Open Scope Z_scope.

(** ** Python values and exceptions *)

(** A Python [object] stored as a value: [None] or anything else. *)
Inductive object (V : Type) : Type :=
| PyNone
| PyVal (v : V).
Arguments PyNone {V}.
Arguments PyVal {V} v.

Inductive exn : Type :=
| ZeroDivisionError
| IndexError
| AttributeError
| TypeError.

Inductive result (A : Type) : Type :=
| Ok (a : A)
| Raise (e : exn).
Arguments Ok {A} a.
Arguments Raise {A} e.

(** ** class HashEntry *)

(** [key] is an [int], or [None] once [delete] has cleared the entry. *)
Record HashEntry (V : Type) : Type := mkEntry {
  key : option Z;
  value : object V
}.
Arguments mkEntry {V} key value.
Arguments key {V} h.
Arguments value {V} h.

(** [HashEntry.delete]: [self.key = None; self.value = None]. *)
Definition HashEntry_delete {V} (e : HashEntry V) : HashEntry V :=
  mkEntry None PyNone.

(** ** class HashTable *)

Record HashTable (V : Type) : Type := mkTable {
  table : list (option (HashEntry V));
  _m : Z
}.
Arguments mkTable {V} table _m.
Arguments table {V} h.
Arguments _m {V} h.

(** [HashTable.__init__]: [self.table = [None] * size; self._m = size].
    A sequence repeated a negative number of times is empty. *)
Definition HashTable_init {V} (size : Z) : HashTable V :=
  mkTable (replicate (Z.to_nat size) None) size.

(** The monad of the methods: the object [self] is the state. *)
Definition M (V A : Type) : Type := HashTable V -> result (A * HashTable V).

Definition ret {V A} (a : A) : M V A := fun s => Ok (a, s).

Definition bind {V A B} (c : M V A) (f : A -> M V B) : M V B :=
  fun s => match c s with
           | Ok (a, s') => f a s'
           | Raise e => Raise e
           end.

Definition raise {V A} (e : exn) : M V A := fun _ => Raise e.

Notation "x <- c ;; k" := (bind c (fun x => k))
  (at level 100, c at next level, right associativity).
Notation "c ;;; k" := (bind c (fun _ => k))
  (at level 100, right associativity).

(** [self._m] *)
Definition get_m {V} : M V Z := fun s => Ok (_m s, s).

(** [a % b] *)
Definition py_mod {V} (a b : Z) : M V Z :=
  if b =? 0 then raise ZeroDivisionError else ret (a mod b).

(** Python's list subscript: [0 <= i < len] is the cell [i],
    [-len <= i < 0] counts from the end, anything else is an
    [IndexError]. *)
Definition py_index (len : nat) (i : Z) : option nat :=
  if (0 <=? i) && (i <? Z.of_nat len) then Some (Z.to_nat i)
  else if (- Z.of_nat len <=? i) && (i <? 0) then Some (Z.to_nat (Z.of_nat len + i))
  else None.

(** [self.table[index]] *)
Definition table_getitem {V} (index : Z) : M V (option (HashEntry V)) :=
  fun s => match py_index (length (table s)) index with
           | Some n => match table s !! n with
                       | Some cell => Ok (cell, s)
                       | None => Raise IndexError
                       end
           | None => Raise IndexError
           end.

(** [self.table[index] = cell] *)
Definition table_setitem {V} (index : Z) (cell : option (HashEntry V)) : M V unit :=
  fun s => match py_index (length (table s)) index with
           | Some n => Ok (tt, mkTable (<[n := cell]> (table s)) (_m s))
           | None => Raise IndexError
           end.

(** [cell.key] and [cell.value]: an attribute of [None] does not exist. *)
Definition attr_key {V} (cell : option (HashEntry V)) : M V (option Z) :=
  match cell with
  | Some e => ret (key e)
  | None => raise AttributeError
  end.

Definition attr_value {V} (cell : option (HashEntry V)) : M V (object V) :=
  match cell with
  | Some e => ret (value e)
  | None => raise AttributeError
  end.

(** [self.table[index].key = k]: the entry object in the cell is changed
    in place. *)
Definition table_set_key {V} (index : Z) (k : option Z) : M V unit :=
  cell <- table_getitem index ;;
  match cell with
  | Some e => table_setitem index (Some (mkEntry k (value e)))
  | None => raise AttributeError
  end.

(** [self.table[index].value = v] *)
Definition table_set_value {V} (index : Z) (v : object V) : M V unit :=
  cell <- table_getitem index ;;
  match cell with
  | Some e => table_setitem index (Some (mkEntry (key e) v))
  | None => raise AttributeError
  end.

(** [self.table[index].delete()] *)
Definition table_entry_delete {V} (index : Z) : M V unit :=
  cell <- table_getitem index ;;
  match cell with
  | Some e => table_setitem index (Some (HashEntry_delete e))
  | None => raise AttributeError
  end.

(** [entry_key == k] for a key attribute that may be [None]. *)
Definition py_key_eq (entry_key : option Z) (k : Z) : bool :=
  match entry_key with
  | Some k' => k' =? k
  | None => false
  end.

(** [range(lo, hi)] *)
Definition range (lo hi : Z) : list Z :=
  map (fun n => lo + Z.of_nat n) (seq 0 (Z.to_nat (hi - lo))).

(** [HashTable.is_empty] *)
Definition is_empty {V} (index : Z) : M V bool :=
  cell <- table_getitem index ;;
  match cell with
  | None => ret true
  | Some _ => ret false
  end.

(** [HashTable.is_free] *)
Definition is_free {V} (index : Z) : M V bool :=
  e <- is_empty index ;;
  if (e : bool) then ret true
  else
    cell <- table_getitem index ;;
    k <- attr_key cell ;;
    match k with
    | None => ret true
    | Some _ => ret false
    end.

(** [HashTable.set_key_value].  The key is whatever the caller passes:
    an [int], or the key attribute read from another cell. *)
Definition set_key_value {V} (index : Z) (k : option Z) (v : object V) : M V unit :=
  e <- is_empty index ;;
  if (e : bool) then table_setitem index (Some (mkEntry k v))
  else table_set_key index k ;;; table_set_value index v.

(** [HashTable.hk] *)
Definition hk {V} (k m : Z) : M V Z :=
  if m =? 0 then ret 0 else py_mod k m.

(** [HashTable.hk2] *)
Definition hk2 {V} (k m : Z) : M V Z :=
  if m =? 2 then ret 0
  else r <- py_mod k (m - 2) ;; ret (1 + r).

(** [self.hk2(cell.key, m)] on a key attribute: [None % n] is a
    [TypeError]. *)
Definition hk2_attr {V} (ek : option Z) (m : Z) : M V Z :=
  match ek with
  | Some k => hk2 k m
  | None => if m =? 2 then ret 0 else raise TypeError
  end.

(** The position computed at the head of each loop body:
    [(self.hk(key, self._m) - i * self.hk2(key, self._m)) % self._m]. *)
Definition probe_hash {V} (k i : Z) : M V Z :=
  m1 <- get_m ;; a <- hk k m1 ;;
  m2 <- get_m ;; b <- hk2 k m2 ;;
  m3 <- get_m ;; py_mod (a - i * b) m3.

(** The loop of [HashTable.insert] over the remaining values of [i].
    [hash_end] is [-1] until the [break], which is followed at once by
    [return hash_end]. *)
Fixpoint insert_loop {V} (k : Z) (v : object V) (rng : list Z) : M V Z :=
  match rng with
  | [] => ret (-1)
  | i :: rng' =>
      hash <- probe_hash k i ;;
      free <- is_free hash ;;
      if (free : bool) then
        set_key_value hash (Some k) v ;;; ret hash
      else
        cell <- table_getitem hash ;;
        k' <- attr_key cell ;;
        if py_key_eq k' k then ret (-1)
        else insert_loop k v rng'
  end.

(** [HashTable.insert] *)
Definition insert {V} (k : Z) (v : object V) : M V Z :=
  m <- get_m ;; insert_loop k v (range 0 m).

(** The loop of [HashTable.insert_brent]. *)
Fixpoint insert_brent_loop {V} (k : Z) (v : object V) (rng : list Z) : M V Z :=
  match rng with
  | [] => ret (-1)
  | i :: rng' =>
      hash <- probe_hash k i ;;
      free <- is_free hash ;;
      if (free : bool) then
        set_key_value hash (Some k) v ;;; ret hash
      else
        cell <- table_getitem hash ;;
        k' <- attr_key cell ;;
        if py_key_eq k' k then ret (-1)
        else
          m1 <- get_m ;; b <- hk2 k m1 ;;
          m2 <- get_m ;; hash1 <- py_mod (hash - b) m2 ;;
          free1 <- is_free hash1 ;;
          if (free1 : bool) then
            set_key_value hash1 (Some k) v ;;; ret hash1
          else
            cell2 <- table_getitem hash ;;
            existing <- attr_key cell2 ;;
            m3 <- get_m ;; b2 <- hk2_attr existing m3 ;;
            m4 <- get_m ;; hash2 <- py_mod (hash - b2) m4 ;;
            free2 <- is_free hash2 ;;
            if (free2 : bool) then
              c1 <- table_getitem hash ;; moved_key <- attr_key c1 ;;
              c2 <- table_getitem hash ;; moved_value <- attr_value c2 ;;
              set_key_value hash2 moved_key moved_value ;;;
              set_key_value hash (Some k) v ;;;
              ret hash
            else insert_brent_loop k v rng'
  end.

(** [HashTable.insert_brent] *)
Definition insert_brent {V} (k : Z) (v : object V) : M V Z :=
  m <- get_m ;; insert_brent_loop k v (range 0 m).

(** The loop of [HashTable.get_position]: a free cell is skipped with
    [continue], a cell with the key ends the loop. *)
Fixpoint get_position_loop {V} (k : Z) (rng : list Z) : M V Z :=
  match rng with
  | [] => ret (-1)
  | i :: rng' =>
      hash <- probe_hash k i ;;
      free <- is_free hash ;;
      if (free : bool) then get_position_loop k rng'
      else
        cell <- table_getitem hash ;;
        k' <- attr_key cell ;;
        if py_key_eq k' k then ret hash
        else get_position_loop k rng'
  end.

(** [HashTable.get_position] *)
Definition get_position {V} (k : Z) : M V Z :=
  m <- get_m ;; get_position_loop k (range 0 m).

(** [HashTable.retrieve] *)
Definition retrieve {V} (k : Z) : M V (object V) :=
  hash <- get_position k ;;
  if hash =? -1 then ret PyNone
  else cell <- table_getitem hash ;; attr_value cell.

(** [HashTable.delete] *)
Definition delete {V} (k : Z) : M V Z :=
  hash <- get_position k ;;
  if hash =? -1 then ret (-1)
  else table_entry_delete hash ;;; ret hash.

(** ** The public operations and runs of them *)

Inductive op (V : Type) : Type :=
| OpInsert (k : Z) (v : object V)
| OpInsertBrent (k : Z) (v : object V)
| OpRetrieve (k : Z)
| OpDelete (k : Z).
Arguments OpInsert {V} k v.
Arguments OpInsertBrent {V} k v.
Arguments OpRetrieve {V} k.
Arguments OpDelete {V} k.

(** What a call returns: an [int] or an [object]. *)
Inductive retval (V : Type) : Type :=
| RInt (z : Z)
| RObj (o : object V).
Arguments RInt {V} z.
Arguments RObj {V} o.

Definition run_op {V} (o : op V) : M V (retval V) :=
  match o with
  | OpInsert k v => r <- insert k v ;; ret (RInt r)
  | OpInsertBrent k v => r <- insert_brent k v ;; ret (RInt r)
  | OpRetrieve k => r <- retrieve k ;; ret (RObj r)
  | OpDelete k => r <- delete k ;; ret (RInt r)
  end.

(** The calls of [ops] one after the other, with what each returned. *)
Fixpoint run_ops {V} (ops : list (op V)) : M V (list (retval V)) :=
  match ops with
  | [] => ret []
  | o :: ops' => r <- run_op o ;; rs <- run_ops ops' ;; ret (r :: rs)
  end.

(** A table that some sequence of calls produces from a fresh one. *)
Definition reachable {V} (t : HashTable V) : Prop :=
  exists size ops rs, run_ops ops (HashTable_init size) = Ok (rs, t).

(** The ordinary failure values: [-1] and [None]. *)
Definition is_failure {V} (r : retval V) : bool :=
  match r with
  | RInt z => z =? -1
  | RObj PyNone => true
  | RObj (PyVal _) => false
  end.

(** ** The table as the specification sees it *)

(** The three states of a slot. *)
Inductive slot_state (V : Type) : Type :=
| Empty
| Tombstone
| Occupied (k : Z) (v : object V).
Arguments Empty {V}.
Arguments Tombstone {V}.
Arguments Occupied {V} k v.

Definition state_of {V} (cell : option (HashEntry V)) : slot_state V :=
  match cell with
  | None => Empty
  | Some e => match key e with
              | None => Tombstone
              | Some k => Occupied k (value e)
              end
  end.

(** The state of slot [p], for [p] inside the list. *)
Definition slot_at {V} (t : HashTable V) (p : Z) : option (slot_state V) :=
  if p <? 0 then None else state_of <$> (table t !! Z.to_nat p).

Definition free_state {V} (s : slot_state V) : bool :=
  match s with
  | Occupied _ _ => false
  | _ => true
  end.

(** Slot [p] is free: Empty or Tombstone. *)
Definition free_at {V} (t : HashTable V) (p : Z) : Prop :=
  exists s, slot_at t p = Some s /\ free_state s = true.

(** Slot [p] is Occupied with key [k]. *)
Definition key_at {V} (t : HashTable V) (p : Z) (k : Z) : Prop :=
  exists v, slot_at t p = Some (Occupied k v).

(** Slot [p] is Occupied with a key other than [k]. *)
Definition other_at {V} (t : HashTable V) (p : Z) (k : Z) : Prop :=
  exists k' v, slot_at t p = Some (Occupied k' v) /\ k' <> k.

(** No slot is Occupied with key [k]. *)
Definition absent {V} (t : HashTable V) (k : Z) : Prop :=
  forall p, ~ key_at t p k.

(** The table with [Occupied k v] written into slot [p]. *)
Definition write {V} (t : HashTable V) (p : Z) (k : Z) (v : object V) : HashTable V :=
  mkTable (<[Z.to_nat p := Some (mkEntry (Some k) v)]> (table t)) (_m t).

(** The table with slot [p] turned into a Tombstone. *)
Definition clear {V} (t : HashTable V) (p : Z) : HashTable V :=
  mkTable (<[Z.to_nat p := Some (mkEntry None PyNone)]> (table t)) (_m t).

(** The hash functions and the probe sequence in the words of the
    specification. *)
Definition h1 (k m : Z) : Z := k mod m.

Definition h2 (k m : Z) : Z :=
  if m =? 2 then 0 else 1 + k mod (m - 2).

Definition pos (m k i : Z) : Z := (h1 k m - i * h2 k m) mod m.

(** The list and the capacity agree: what [__init__] sets up. *)
Definition table_ok {V} (t : HashTable V) : Prop :=
  length (table t) = Z.to_nat (_m t).

(** Every Occupied slot lies on the probe sequence of its key. *)
Definition on_probe {V} (t : HashTable V) : Prop :=
  forall p k, key_at t p k -> exists i, 0 <= i < _m t /\ p = pos (_m t) k i.

(** The keys of the Occupied slots, slot by slot. *)
Definition occupied_keys {V} (t : HashTable V) : list Z :=
  omap (fun cell : option (HashEntry V) =>
          match cell with Some e => key e | None => None end) (table t).

(** Iteration [i] of [insert_brent] for key [k] neither places nor
    rejects: the slot holds another key, and neither the next position
    of [k] nor the next position of the occupant is free. *)
Definition brent_cont {V} (t : HashTable V) (k i : Z) : Prop :=
  exists existing ev,
    slot_at t (pos (_m t) k i) = Some (Occupied existing ev) /\
    existing <> k /\
    ~ free_at t ((pos (_m t) k i - h2 k (_m t)) mod _m t) /\
    ~ free_at t ((pos (_m t) k i - h2 existing (_m t)) mod _m t).

(** A returned value is in order for capacity [m]: an [int] is [-1] or
    an index of the table. *)
Definition ordinary {V} (m : Z) (r : retval V) : Prop :=
  match r with
  | RInt z => z = -1 \/ 0 <= z < m
  | RObj _ => True
  end.

(** ** Example tables and runs, capacity 7

    With [m = 7]: [h1(0) = h1(7) = 0], [h2(0) = 1], [h2(7) = 3], so key 0
    probes 0, 6, 5, ... and key 7 probes 0, 4, 1, ... *)

(** Key 0 in its home slot. *)
Definition collision_table : HashTable nat :=
  mkTable [Some (mkEntry (Some 0) (PyVal 1%nat)); None; None; None; None; None; None] 7.

(** Keys 0 and 4 in their home slots: slot 4, the next probe of key 7, is
    taken, slot 6, the next probe of key 0, is free. *)
Definition brent_table : HashTable nat :=
  mkTable [Some (mkEntry (Some 0) (PyVal 1%nat)); None; None; None;
           Some (mkEntry (Some 4) (PyVal 2%nat)); None; None] 7.

(** Key 7 in slot 4 behind a Tombstone in slot 0. *)
Definition tombstone_table : HashTable nat :=
  mkTable [Some (mkEntry None PyNone); None; None; None;
           Some (mkEntry (Some 7) (PyVal 2%nat)); None; None] 7.

(** Key 7 goes to slot 4 behind key 0, key 0 is deleted, key 7 is inserted
    again. *)
Definition tombstone_run : list (op nat) :=
  [OpInsert 0 (PyVal 1%nat); OpInsert 7 (PyVal 2%nat); OpDelete 0;
   OpInsert 7 (PyVal 3%nat)].

(** The same, followed by the round trip on key 7. *)
Definition round_trip_run : list (op nat) :=
  tombstone_run ++ [OpRetrieve 7; OpDelete 7; OpRetrieve 7].

(** ** The contents of the table *)

(** Some slot holds the entry [(k, v)]. *)
Definition holds {V} (t : HashTable V) (k : Z) (v : object V) : Prop :=
  exists p, slot_at t p = Some (Occupied k v).

(** At most one slot holds key [k]. *)
Definition unique_key {V} (t : HashTable V) (k : Z) : Prop :=
  forall p q, key_at t p k -> key_at t q k -> p = q.

(** No key is held by two slots. *)
Definition no_dup {V} (t : HashTable V) : Prop :=
  forall k, unique_key t k.

(** No slot of the table is free. *)
Definition full {V} (t : HashTable V) : Prop :=
  forall p, 0 <= p < _m t -> ~ free_at t p.

(** Capacity 2 with key 0 at home: slot 1 is free. *)
Definition pair_table : HashTable nat :=
  mkTable [Some (mkEntry (Some 0) (PyVal 1%nat)); None] 2.

(** Capacity 2 with no free slot. *)
Definition full_table : HashTable nat :=
  mkTable [Some (mkEntry (Some 0) (PyVal 1%nat));
           Some (mkEntry (Some 1) (PyVal 2%nat))] 2.

(** Every Occupied slot is reached along the probe sequence of its key
    without passing a free slot. *)
Definition packed {V} (t : HashTable V) : Prop :=
  forall p k, key_at t p k ->
    exists i, 0 <= i < _m t /\ p = pos (_m t) k i /\
      forall j, 0 <= j < i -> ~ free_at t (pos (_m t) k j).

(** The calls [insert] and [retrieve]. *)
Definition plain_op {V} (o : op V) : bool :=
  match o with
  | OpInsert _ _ | OpRetrieve _ => true
  | OpInsertBrent _ _ | OpDelete _ => false
  end.

(** Key 0 at home and key 7 in slot 4, its second probe; nothing was ever
    deleted. *)
Definition ahead_table : HashTable nat :=
  mkTable [Some (mkEntry (Some 0) (PyVal 1%nat)); None; None; None;
           Some (mkEntry (Some 7) (PyVal 2%nat)); None; None] 7.

(** ** Arithmetic of the probe sequence *)

Lemma pos_range (m k i : Z) : 0 < m -> 0 <= pos m k i < m.
Proof. intros Hm. unfold pos. apply Z.mod_pos_bound. exact Hm. Qed.

Lemma h2_range (k m : Z) : 2 < m -> 1 <= h2 k m <= m - 2.
Proof.
  intros Hm. unfold h2.
  destruct (Z.eqb_spec m 2) as [E|_]; [lia|].
  pose proof (Z.mod_pos_bound k (m - 2)). lia.
Qed.

(** One more step of [k]'s own stride from its probe [i] is its probe
    [i + 1]. *)
Lemma pos_step (m k i : Z) :
  0 < m -> (pos m k i - h2 k m) mod m = pos m k (i + 1).
Proof.
  intros Hm. unfold pos.
  rewrite Zminus_mod_idemp_l. f_equal. ring.
Qed.

(** The probe sequence closes after [m] steps. *)
Lemma pos_wrap (m k : Z) : 0 < m -> pos m k m = pos m k 0.
Proof.
  intros Hm. unfold pos.
  replace (h1 k m - m * h2 k m) with (h1 k m - 0 * h2 k m + (- h2 k m) * m) by ring.
  apply Z_mod_plus_full.
Qed.

(** The next position is again one of the [m] probes. *)
Lemma pos_step_on_probe (m k i : Z) :
  0 <= i < m ->
  exists j, 0 <= j < m /\ (pos m k i - h2 k m) mod m = pos m k j.
Proof.
  intros Hi. rewrite pos_step by lia.
  destruct (Z.eq_dec (i + 1) m) as [E|E].
  - exists 0. split; [lia|]. rewrite E. apply pos_wrap. lia.
  - exists (i + 1). split; [lia|]. reflexivity.
Qed.

(** ** [range] *)

Lemma range_nil (lo hi : Z) : hi <= lo -> range lo hi = [].
Proof.
  intros H. unfold range. replace (Z.to_nat (hi - lo)) with 0%nat by lia.
  reflexivity.
Qed.

Lemma range_cons (lo hi : Z) : lo < hi -> range lo hi = lo :: range (lo + 1) hi.
Proof.
  intros H. unfold range.
  replace (Z.to_nat (hi - lo)) with (S (Z.to_nat (hi - (lo + 1)))) by lia.
  cbn [seq map]. f_equal; [lia|].
  rewrite <- seq_shift, map_map.
  apply map_ext. intros n. lia.
Qed.

Lemma range_split (lo i hi : Z) :
  lo <= i < hi -> range lo hi = range lo i ++ i :: range (i + 1) hi.
Proof.
  intros H.
  remember (Z.to_nat (i - lo)) as n eqn:En.
  revert lo En H. induction n as [|n IH]; intros lo En H.
  - assert (i = lo) by lia. subst i.
    rewrite (range_nil lo lo) by lia. cbn [app]. apply range_cons. lia.
  - rewrite (range_cons lo hi) by lia. rewrite (range_cons lo i) by lia.
    cbn [app]. f_equal. apply IH; lia.
Qed.

Lemma range_app (lo i hi : Z) :
  lo <= i <= hi -> range lo hi = range lo i ++ range i hi.
Proof.
  intros H. destruct (Z.eq_dec i hi) as [->|Hne].
  - rewrite (range_nil hi hi) by lia. symmetry. apply app_nil_r.
  - rewrite (range_cons i hi) by lia. apply range_split. lia.
Qed.

Lemma range_bounds (lo hi : Z) : Forall (fun j => lo <= j < hi) (range lo hi).
Proof.
  unfold range. apply List.Forall_forall. intros j Hj.
  apply in_map_iff in Hj. destruct Hj as [n [<- Hn]].
  apply in_seq in Hn. lia.
Qed.

(** A scan of the indices below [n] either passes every one or stops at
    a first one. *)
Lemma first_index (P Q : Z -> Prop) (n : Z) :
  0 <= n ->
  (forall j, 0 <= j < n -> P j \/ Q j) ->
  (forall j, 0 <= j < n -> P j) \/
  exists i, 0 <= i < n /\ (forall j, 0 <= j < i -> P j) /\ Q i.
Proof.
  intros Hn. pattern n. apply natlike_ind; [| | exact Hn].
  - intros _. left. intros j Hj. lia.
  - intros x Hx IH Hdec.
    destruct IH as [Hall|(i & Hi & Hpre & Hq)].
    + intros j Hj. apply Hdec. lia.
    + destruct (Hdec x ltac:(lia)) as [Hp|Hq].
      * left. intros j Hj. destruct (Z.eq_dec j x) as [->|Hne]; [exact Hp|].
        apply Hall. lia.
      * right. exists x. split; [lia|]. split; [|exact Hq].
        intros j Hj. apply Hall. lia.
    + right. exists i. split; [lia|]. split; assumption.
Qed.

(** ** The primitive steps on a well-formed table *)

Section Primitives.
Context {V : Type}.
Implicit Types (t : HashTable V) (v : object V) (cell : option (HashEntry V)).

Lemma bind_inv {A B} (c : M V A) (f : A -> M V B) t b t'' :
  bind c f t = Ok (b, t'') ->
  exists a t', c t = Ok (a, t') /\ f a t' = Ok (b, t'').
Proof.
  unfold bind. destruct (c t) as [[a t']|e]; [|discriminate].
  intros H. exists a, t'. split; [reflexivity | exact H].
Qed.

Lemma py_index_in (len : nat) (i : Z) :
  0 <= i < Z.of_nat len -> py_index len i = Some (Z.to_nat i).
Proof.
  intros H. unfold py_index.
  destruct (Z.leb_spec 0 i); [|lia].
  destruct (Z.ltb_spec i (Z.of_nat len)); [|lia].
  reflexivity.
Qed.

Lemma table_ok_index t p :
  table_ok t -> 0 <= p < _m t ->
  py_index (length (table t)) p = Some (Z.to_nat p).
Proof. unfold table_ok. intros Hok Hp. apply py_index_in. lia. Qed.

Lemma table_ok_cell t p :
  table_ok t -> 0 <= p < _m t -> exists cell, table t !! Z.to_nat p = Some cell.
Proof.
  unfold table_ok. intros Hok Hp.
  destruct (lookup_lt_is_Some_2 (table t) (Z.to_nat p)) as [cell Hc]; [lia|].
  exists cell. exact Hc.
Qed.

Lemma slot_at_cell t p cell :
  0 <= p -> table t !! Z.to_nat p = Some cell -> slot_at t p = Some (state_of cell).
Proof.
  intros Hp Hc. unfold slot_at.
  destruct (Z.ltb_spec p 0); [lia|]. rewrite Hc. reflexivity.
Qed.

Lemma slot_at_inv t p s :
  slot_at t p = Some s ->
  0 <= p /\ exists cell, table t !! Z.to_nat p = Some cell /\ s = state_of cell.
Proof.
  unfold slot_at. destruct (Z.ltb_spec p 0); [discriminate|].
  destruct (table t !! Z.to_nat p) as [cell|] eqn:Hc; [|discriminate].
  cbn. intros [= <-]. split; [assumption|]. exists cell. split; reflexivity.
Qed.

Lemma slot_at_bound t p s : table_ok t -> slot_at t p = Some s -> 0 <= p < _m t.
Proof.
  intros Hok Hs. apply slot_at_inv in Hs. destruct Hs as [Hp [cell [Hc _]]].
  apply lookup_lt_Some in Hc. unfold table_ok in Hok. lia.
Qed.

(** A slot inside the table is free, holds the key, or holds another key. *)
Lemma slot_cases t p k :
  table_ok t -> 0 <= p < _m t ->
  free_at t p \/ key_at t p k \/ other_at t p k.
Proof.
  intros Hok Hp. destruct (table_ok_cell t p Hok Hp) as [cell Hc].
  pose proof (slot_at_cell t p cell (proj1 Hp) Hc) as Hs.
  destruct (state_of cell) as [| |k' v'] eqn:Est.
  - left. eexists. split; [exact Hs | reflexivity].
  - left. eexists. split; [exact Hs | reflexivity].
  - destruct (Z.eq_dec k' k) as [->|Hne].
    + right. left. exists v'. exact Hs.
    + right. right. exists k', v'. split; assumption.
Qed.

Lemma free_not_key t p k : free_at t p -> ~ key_at t p k.
Proof. intros [s [Hs Hf]] [v Hv]. rewrite Hv in Hs. injection Hs as <-. discriminate. Qed.

Lemma other_not_key t p k : other_at t p k -> ~ key_at t p k.
Proof. intros [k' [v' [Hs Hne]]] [v Hv]. rewrite Hv in Hs. congruence. Qed.

Lemma other_not_free t p k : other_at t p k -> ~ free_at t p.
Proof. intros [k' [v' [Hs Hne]]] [s [Hs' Hf]]. rewrite Hs in Hs'. injection Hs' as <-. discriminate. Qed.

Lemma key_not_free t p k : key_at t p k -> ~ free_at t p.
Proof. intros Hk Hf. exact (free_not_key t p k Hf Hk). Qed.

Lemma table_getitem_ok t p cell :
  table_ok t -> 0 <= p < _m t -> table t !! Z.to_nat p = Some cell ->
  table_getitem p t = Ok (cell, t).
Proof.
  intros Hok Hp Hc. unfold table_getitem.
  rewrite (table_ok_index t p Hok Hp), Hc. reflexivity.
Qed.

Lemma table_setitem_ok t p cell :
  table_ok t -> 0 <= p < _m t ->
  table_setitem p cell t = Ok (tt, mkTable (<[Z.to_nat p := cell]> (table t)) (_m t)).
Proof.
  intros Hok Hp. unfold table_setitem.
  rewrite (table_ok_index t p Hok Hp). reflexivity.
Qed.

Lemma table_ok_update t n cell :
  table_ok t -> table_ok (mkTable (<[n := cell]> (table t)) (_m t)).
Proof. unfold table_ok. cbn. rewrite length_insert. trivial. Qed.

Lemma is_free_ok t p cell :
  table_ok t -> 0 <= p < _m t -> table t !! Z.to_nat p = Some cell ->
  is_free p t = Ok (free_state (state_of cell), t).
Proof.
  intros Hok Hp Hc. pose proof (table_getitem_ok t p cell Hok Hp Hc) as Hg.
  unfold is_free, is_empty, bind. rewrite Hg.
  destruct cell as [e|]; cbn [ret]; [|reflexivity].
  rewrite Hg. unfold attr_key, ret, state_of. destruct (key e); reflexivity.
Qed.

Lemma set_key_value_ok t p k v :
  table_ok t -> 0 <= p < _m t ->
  set_key_value p (Some k) v t = Ok (tt, write t p k v).
Proof.
  intros Hok Hp. destruct (table_ok_cell t p Hok Hp) as [cell Hc].
  pose proof (table_getitem_ok t p cell Hok Hp Hc) as Hg.
  pose proof (table_setitem_ok t p) as Hs.
  unfold set_key_value, is_empty, bind. rewrite Hg.
  destruct cell as [e|]; cbn [ret].
  - unfold table_set_key, bind. rewrite Hg, (Hs _ Hok Hp).
    set (e1 := Some (mkEntry (Some k) (value e))).
    pose proof (table_ok_update t (Z.to_nat p) e1 Hok) as Hok1.
    set (t1 := mkTable (<[Z.to_nat p := e1]> (table t)) (_m t)) in *.
    assert (Hc1 : table t1 !! Z.to_nat p = Some e1).
    { cbn. apply list_lookup_insert_eq. apply lookup_lt_Some in Hc. exact Hc. }
    unfold table_set_value, bind.
    rewrite (table_getitem_ok t1 p e1 Hok1 Hp Hc1). cbn [e1].
    rewrite (table_setitem_ok t1 p _ Hok1 Hp).
    unfold write. cbn. rewrite list_insert_insert_eq. reflexivity.
  - rewrite (Hs _ Hok Hp). reflexivity.
Qed.
End Primitives.

(** ** One iteration of each loop *)

Section Steps.
Context {V : Type}.
Implicit Types (t : HashTable V) (v : object V) (cell : option (HashEntry V)).

Lemma hk_ok t k m : m <> 0 -> hk k m t = Ok (h1 k m, t).
Proof.
  intros Hm. unfold hk, py_mod, h1.
  destruct (Z.eqb_spec m 0); [contradiction|]. reflexivity.
Qed.

Lemma hk2_ok t k m : hk2 k m t = Ok (h2 k m, t).
Proof.
  unfold hk2, h2, py_mod, bind.
  destruct (Z.eqb_spec m 2) as [E|E]; [reflexivity|].
  destruct (Z.eqb_spec (m - 2) 0); [lia|]. reflexivity.
Qed.

Lemma py_mod_ok t a m : m <> 0 -> py_mod a m t = Ok (a mod m, t).
Proof. intros Hm. unfold py_mod. destruct (Z.eqb_spec m 0); [contradiction|]. reflexivity. Qed.

Lemma probe_hash_ok t k i :
  _m t <> 0 -> probe_hash k i t = Ok (pos (_m t) k i, t).
Proof.
  intros Hm. unfold probe_hash, bind, get_m.
  rewrite (hk_ok t k (_m t) Hm), hk2_ok. apply py_mod_ok. exact Hm.
Qed.

Lemma occupied_cell t p k v :
  slot_at t p = Some (Occupied k v) ->
  exists e, table t !! Z.to_nat p = Some (Some e) /\ key e = Some k /\ value e = v.
Proof.
  intros Hs. apply slot_at_inv in Hs. destruct Hs as [_ [cell [Hc Hst]]].
  destruct cell as [e|]; [|discriminate].
  unfold state_of in Hst. destruct (key e) as [k'|] eqn:Hk; [|discriminate].
  injection Hst as -> ->. exists e. repeat split; assumption.
Qed.

Lemma is_free_free t p :
  table_ok t -> free_at t p -> is_free p t = Ok (true, t).
Proof.
  intros Hok [s [Hs Hf]]. pose proof (slot_at_bound t p s Hok Hs) as Hp.
  apply slot_at_inv in Hs. destruct Hs as [_ [cell [Hc ->]]].
  rewrite (is_free_ok t p cell Hok Hp Hc), Hf. reflexivity.
Qed.

Lemma is_free_occupied t p k v :
  table_ok t -> slot_at t p = Some (Occupied k v) -> is_free p t = Ok (false, t).
Proof.
  intros Hok Hs. pose proof (slot_at_bound t p _ Hok Hs) as Hp.
  apply slot_at_inv in Hs. destruct Hs as [_ [cell [Hc Hst]]].
  rewrite (is_free_ok t p cell Hok Hp Hc), <- Hst. reflexivity.
Qed.

Lemma getitem_occupied t p k v :
  table_ok t -> slot_at t p = Some (Occupied k v) ->
  exists e, table_getitem p t = Ok (Some e, t) /\ key e = Some k /\ value e = v.
Proof.
  intros Hok Hs. pose proof (slot_at_bound t p _ Hok Hs) as Hp.
  destruct (occupied_cell t p k v Hs) as [e [Hc [Hk Hv]]].
  exists e. split; [|split; assumption].
  apply table_getitem_ok; assumption.
Qed.

(** The head of every loop body: the position of iteration [i]. *)
Ltac enter_iteration :=
  cbn [insert_loop insert_brent_loop get_position_loop]; unfold bind;
  rewrite probe_hash_ok by lia.

(** A cell that is not free is read back with its key. *)
Ltac read_occupied Hok Hs e Hg Hk Hv :=
  rewrite (is_free_occupied _ _ _ _ Hok Hs);
  destruct (getitem_occupied _ _ _ _ Hok Hs) as [e [Hg [Hk Hv]]];
  rewrite Hg; cbn [attr_key ret]; rewrite Hk; cbn [py_key_eq].

(** [HashTable.insert], one iteration. *)

Lemma insert_loop_free t k v i rng :
  table_ok t -> 0 < _m t -> free_at t (pos (_m t) k i) ->
  insert_loop k v (i :: rng) t
  = Ok (pos (_m t) k i, write t (pos (_m t) k i) k v).
Proof.
  intros Hok Hm Hf. enter_iteration.
  rewrite (is_free_free t _ Hok Hf).
  rewrite set_key_value_ok by (try apply pos_range; assumption).
  reflexivity.
Qed.

Lemma insert_loop_dup t k v i rng :
  table_ok t -> 0 < _m t -> key_at t (pos (_m t) k i) k ->
  insert_loop k v (i :: rng) t = Ok (-1, t).
Proof.
  intros Hok Hm [v' Hs]. enter_iteration.
  read_occupied Hok Hs e Hg Hk Hv. rewrite Z.eqb_refl. reflexivity.
Qed.

Lemma insert_loop_other t k v i rng :
  table_ok t -> 0 < _m t -> other_at t (pos (_m t) k i) k ->
  insert_loop k v (i :: rng) t = insert_loop k v rng t.
Proof.
  intros Hok Hm [k' [v' [Hs Hne]]]. enter_iteration.
  read_occupied Hok Hs e Hg Hk Hv.
  destruct (Z.eqb_spec k' k); [contradiction|]. reflexivity.
Qed.

(** [HashTable.get_position], one iteration. *)

Lemma get_position_loop_found t k i rng :
  table_ok t -> 0 < _m t -> key_at t (pos (_m t) k i) k ->
  get_position_loop k (i :: rng) t = Ok (pos (_m t) k i, t).
Proof.
  intros Hok Hm [v' Hs]. enter_iteration.
  read_occupied Hok Hs e Hg Hk Hv. rewrite Z.eqb_refl. reflexivity.
Qed.

Lemma get_position_loop_skip t k i rng :
  table_ok t -> 0 < _m t -> ~ key_at t (pos (_m t) k i) k ->
  get_position_loop k (i :: rng) t = get_position_loop k rng t.
Proof.
  intros Hok Hm Hnk.
  destruct (slot_cases t (pos (_m t) k i) k Hok (pos_range _ k i Hm))
    as [Hf|[Hk|[k' [v' [Hs Hne]]]]]; [| contradiction |].
  - enter_iteration.
    rewrite (is_free_free t _ Hok Hf). reflexivity.
  - enter_iteration.
    read_occupied Hok Hs e Hg Hk Hv.
    destruct (Z.eqb_spec k' k); [contradiction|]. reflexivity.
Qed.

Lemma table_ok_write t p k v : table_ok t -> table_ok (write t p k v).
Proof. apply table_ok_update. Qed.

Lemma table_ok_clear t p : table_ok t -> table_ok (clear t p).
Proof. apply table_ok_update. Qed.

Lemma is_free_not_free t p :
  table_ok t -> 0 <= p < _m t -> ~ free_at t p -> is_free p t = Ok (false, t).
Proof.
  intros Hok Hp Hnf.
  destruct (slot_cases t p 0 Hok Hp) as [Hf|[[v Hs]|[k' [v' [Hs _]]]]];
    [contradiction | |]; eapply is_free_occupied; eassumption.
Qed.

(** [HashTable.insert_brent], one iteration. *)

Lemma insert_brent_loop_free t k v i rng :
  table_ok t -> 0 < _m t -> free_at t (pos (_m t) k i) ->
  insert_brent_loop k v (i :: rng) t
  = Ok (pos (_m t) k i, write t (pos (_m t) k i) k v).
Proof.
  intros Hok Hm Hf. enter_iteration.
  rewrite (is_free_free t _ Hok Hf).
  rewrite set_key_value_ok by (try apply pos_range; assumption).
  reflexivity.
Qed.

Lemma insert_brent_loop_dup t k v i rng :
  table_ok t -> 0 < _m t -> key_at t (pos (_m t) k i) k ->
  insert_brent_loop k v (i :: rng) t = Ok (-1, t).
Proof.
  intros Hok Hm [v' Hs]. enter_iteration.
  read_occupied Hok Hs e Hg Hk Hv. rewrite Z.eqb_refl. reflexivity.
Qed.

Lemma insert_brent_loop_skip_ahead t k v i rng existing ev :
  table_ok t -> 0 < _m t ->
  slot_at t (pos (_m t) k i) = Some (Occupied existing ev) -> existing <> k ->
  free_at t ((pos (_m t) k i - h2 k (_m t)) mod _m t) ->
  insert_brent_loop k v (i :: rng) t
  = Ok ((pos (_m t) k i - h2 k (_m t)) mod _m t,
        write t ((pos (_m t) k i - h2 k (_m t)) mod _m t) k v).
Proof.
  intros Hok Hm Hs Hne Hf1. enter_iteration.
  read_occupied Hok Hs e Hg Hk Hv.
  destruct (Z.eqb_spec existing k); [contradiction|].
  unfold get_m. rewrite hk2_ok, py_mod_ok by lia.
  rewrite (is_free_free t _ Hok Hf1).
  rewrite set_key_value_ok by (try apply Z.mod_pos_bound; assumption).
  reflexivity.
Qed.

Lemma insert_brent_loop_relocate t k v i rng existing ev :
  table_ok t -> 0 < _m t ->
  slot_at t (pos (_m t) k i) = Some (Occupied existing ev) -> existing <> k ->
  ~ free_at t ((pos (_m t) k i - h2 k (_m t)) mod _m t) ->
  free_at t ((pos (_m t) k i - h2 existing (_m t)) mod _m t) ->
  insert_brent_loop k v (i :: rng) t
  = Ok (pos (_m t) k i,
        write (write t ((pos (_m t) k i - h2 existing (_m t)) mod _m t) existing ev)
              (pos (_m t) k i) k v).
Proof.
  intros Hok Hm Hs Hne Hnf1 Hf2. enter_iteration.
  rewrite (is_free_occupied t _ _ _ Hok Hs).
  destruct (getitem_occupied t _ _ _ Hok Hs) as [e [Hg [Hk <-]]].
  rewrite Hg. cbn [attr_key ret]. rewrite Hk. cbn [py_key_eq].
  destruct (Z.eqb_spec existing k); [contradiction|].
  unfold get_m. rewrite hk2_ok, py_mod_ok by lia.
  rewrite (is_free_not_free t _ Hok) by (try apply Z.mod_pos_bound; assumption).
  rewrite Hg. cbn [attr_key ret]. rewrite Hk. cbn [hk2_attr].
  rewrite hk2_ok, py_mod_ok by lia.
  rewrite (is_free_free t _ Hok Hf2).
  rewrite Hg. cbn [attr_key ret]. rewrite Hg. cbn [attr_value ret]. rewrite Hk.
  rewrite set_key_value_ok by (try apply Z.mod_pos_bound; assumption).
  rewrite set_key_value_ok
    by (try apply table_ok_write; try apply pos_range; assumption).
  reflexivity.
Qed.

Lemma insert_brent_loop_continue t k v i rng existing ev :
  table_ok t -> 0 < _m t ->
  slot_at t (pos (_m t) k i) = Some (Occupied existing ev) -> existing <> k ->
  ~ free_at t ((pos (_m t) k i - h2 k (_m t)) mod _m t) ->
  ~ free_at t ((pos (_m t) k i - h2 existing (_m t)) mod _m t) ->
  insert_brent_loop k v (i :: rng) t = insert_brent_loop k v rng t.
Proof.
  intros Hok Hm Hs Hne Hnf1 Hnf2. enter_iteration.
  rewrite (is_free_occupied t _ _ _ Hok Hs).
  destruct (getitem_occupied t _ _ _ Hok Hs) as [e [Hg [Hk _]]].
  rewrite Hg. cbn [attr_key ret]. rewrite Hk. cbn [py_key_eq].
  destruct (Z.eqb_spec existing k); [contradiction|].
  unfold get_m. rewrite hk2_ok, py_mod_ok by lia.
  rewrite (is_free_not_free t _ Hok) by (try apply Z.mod_pos_bound; assumption).
  rewrite Hg. cbn [attr_key ret]. rewrite Hk. cbn [hk2_attr].
  rewrite hk2_ok, py_mod_ok by lia.
  rewrite (is_free_not_free t _ Hok) by (try apply Z.mod_pos_bound; assumption).
  reflexivity.
Qed.
End Steps.


(** ** The loops as scans of the probe sequence *)

Section Scans.
Context {V : Type}.
Implicit Types (t : HashTable V) (v : object V).

Lemma insert_loop_pass t k v pre rng :
  table_ok t -> 0 < _m t ->
  Forall (fun j => other_at t (pos (_m t) k j) k) pre ->
  insert_loop k v (pre ++ rng) t = insert_loop k v rng t.
Proof.
  intros Hok Hm. induction 1 as [|j pre Hj _ IH]; [reflexivity|].
  cbn [app]. rewrite insert_loop_other by assumption. exact IH.
Qed.

Lemma get_position_loop_pass t k pre rng :
  table_ok t -> 0 < _m t ->
  Forall (fun j => ~ key_at t (pos (_m t) k j) k) pre ->
  get_position_loop k (pre ++ rng) t = get_position_loop k rng t.
Proof.
  intros Hok Hm. induction 1 as [|j pre Hj _ IH]; [reflexivity|].
  cbn [app]. rewrite get_position_loop_skip by assumption. exact IH.
Qed.

Lemma insert_brent_loop_cont t k v i rng :
  table_ok t -> 0 < _m t -> brent_cont t k i ->
  insert_brent_loop k v (i :: rng) t = insert_brent_loop k v rng t.
Proof.
  intros Hok Hm (existing & ev & Hs & Hne & Hnf1 & Hnf2).
  eapply insert_brent_loop_continue; eassumption.
Qed.

Lemma insert_brent_loop_pass t k v pre rng :
  table_ok t -> 0 < _m t ->
  Forall (brent_cont t k) pre ->
  insert_brent_loop k v (pre ++ rng) t = insert_brent_loop k v rng t.
Proof.
  intros Hok Hm. induction 1 as [|j pre Hj _ IH]; [reflexivity|].
  cbn [app]. rewrite insert_brent_loop_cont by assumption. exact IH.
Qed.

Lemma Forall_range (P : Z -> Prop) (lo hi : Z) :
  (forall j, lo <= j < hi -> P j) -> Forall P (range lo hi).
Proof.
  intros H. eapply Forall_impl; [apply range_bounds|]. exact H.
Qed.

(** Arriving at iteration [i]: the iterations before it all passed. *)
Lemma insert_reaches t k v i :
  table_ok t -> 0 <= i <= _m t ->
  (forall j, 0 <= j < i -> other_at t (pos (_m t) k j) k) ->
  insert k v t = insert_loop k v (range i (_m t)) t.
Proof.
  intros Hok Hi Hpre. unfold insert, bind, get_m.
  destruct (Z.eq_dec i 0) as [->|Hi0]; [reflexivity|].
  rewrite (range_app 0 i (_m t)) by lia.
  apply insert_loop_pass; [assumption | lia |]. apply Forall_range. exact Hpre.
Qed.

Lemma get_position_reaches t k i :
  table_ok t -> 0 <= i <= _m t ->
  (forall j, 0 <= j < i -> ~ key_at t (pos (_m t) k j) k) ->
  get_position k t = get_position_loop k (range i (_m t)) t.
Proof.
  intros Hok Hi Hpre. unfold get_position, bind, get_m.
  destruct (Z.eq_dec i 0) as [->|Hi0]; [reflexivity|].
  rewrite (range_app 0 i (_m t)) by lia.
  apply get_position_loop_pass; [assumption | lia |]. apply Forall_range. exact Hpre.
Qed.

Lemma insert_brent_reaches t k v i :
  table_ok t -> 0 <= i <= _m t ->
  (forall j, 0 <= j < i -> brent_cont t k j) ->
  insert_brent k v t = insert_brent_loop k v (range i (_m t)) t.
Proof.
  intros Hok Hi Hpre. unfold insert_brent, bind, get_m.
  destruct (Z.eq_dec i 0) as [->|Hi0]; [reflexivity|].
  rewrite (range_app 0 i (_m t)) by lia.
  apply insert_brent_loop_pass; [assumption | lia |]. apply Forall_range. exact Hpre.
Qed.
End Scans.

(** ** What the three loops compute *)

(** C3. [insert(k, v)] examines the positions
    [pos(k, i) = (h1(k,m) - i * h2(k,m)) mod m] for [i = 0 .. m-1] in that
    order, with [h1(k,m) = k mod m], [h2(k,m) = 1 + k mod (m-2)] for
    [m > 2] and [h2 = 0] for [m = 2]: the position computed in iteration
    [i] is [pos(k, i)]; at the first position that is free it writes
    [Occupied(k, v)] there and returns that index; at a first position that
    holds [k] it returns [-1]; when every one of the [m] positions holds
    another key it returns [-1]. *)
Theorem insert_probes_in_order {V} (t : HashTable V) (k : Z) (v : object V) :
  table_ok t ->
  (_m t <> 0 -> hk k (_m t) t = Ok (k mod _m t, t)) /\
  (2 < _m t -> hk2 k (_m t) t = Ok (1 + k mod (_m t - 2), t)) /\
  (_m t = 2 -> hk2 k (_m t) t = Ok (0, t)) /\
  (forall i, 0 <= i < _m t ->
     probe_hash k i t = Ok ((k mod _m t - i * h2 k (_m t)) mod _m t, t)) /\
  (forall i, 0 <= i < _m t ->
     (forall j, 0 <= j < i -> other_at t (pos (_m t) k j) k) ->
     free_at t (pos (_m t) k i) ->
     insert k v t = Ok (pos (_m t) k i, write t (pos (_m t) k i) k v)) /\
  (forall i, 0 <= i < _m t ->
     (forall j, 0 <= j < i -> other_at t (pos (_m t) k j) k) ->
     key_at t (pos (_m t) k i) k ->
     insert k v t = Ok (-1, t)) /\
  ((forall j, 0 <= j < _m t -> other_at t (pos (_m t) k j) k) ->
   insert k v t = Ok (-1, t)).
Proof.
  intros Hok. repeat split.
  - intros Hm. apply hk_ok. exact Hm.
  - intros Hm. rewrite hk2_ok. unfold h2.
    destruct (Z.eqb_spec (_m t) 2); [lia | reflexivity].
  - intros Hm. rewrite hk2_ok. unfold h2. rewrite Hm. reflexivity.
  - intros i Hi. apply probe_hash_ok. lia.
  - intros i Hi Hpre Hf.
    rewrite (insert_reaches t k v i Hok) by (lia || assumption).
    rewrite (range_cons i) by lia. apply insert_loop_free; [assumption | lia | assumption].
  - intros i Hi Hpre Hk.
    rewrite (insert_reaches t k v i Hok) by (lia || assumption).
    rewrite (range_cons i) by lia. apply insert_loop_dup; [assumption | lia | assumption].
  - intros Hall. destruct (Z_le_gt_dec (_m t) 0) as [Hm|Hm].
    + unfold insert, bind, get_m. rewrite range_nil by lia. reflexivity.
    + rewrite (insert_reaches t k v (_m t) Hok) by (lia || assumption).
      rewrite range_nil by lia. reflexivity.
Qed.

(** C5. [get_position(k)] scans [pos(k, i)] for [i = 0 .. m-1]; a free
    slot, like a slot with another key, is passed over and never ends the
    scan; the index of the first Occupied slot whose key is [k] is
    returned, and [-1] when none of the [m] positions holds [k].  The
    table is not changed.  [retrieve(k)] and [delete(k)] act on that
    index, and return [None] and [-1] when it is [-1]. *)
Theorem get_position_scans_all {V} (t : HashTable V) (k : Z) :
  table_ok t ->
  (forall i, 0 <= i < _m t ->
     (forall j, 0 <= j < i -> ~ key_at t (pos (_m t) k j) k) ->
     key_at t (pos (_m t) k i) k ->
     get_position k t = Ok (pos (_m t) k i, t)) /\
  (forall i, 0 <= i < _m t ->
     (forall j, 0 <= j < i -> ~ key_at t (pos (_m t) k j) k) ->
     free_at t (pos (_m t) k i) ->
     get_position k t = get_position_loop k (range (i + 1) (_m t)) t) /\
  ((forall j, 0 <= j < _m t -> ~ key_at t (pos (_m t) k j) k) ->
   get_position k t = Ok (-1, t)) /\
  (forall p v, get_position k t = Ok (p, t) -> p <> -1 ->
     slot_at t p = Some (Occupied k v) ->
     retrieve k t = Ok (v, t) /\ delete k t = Ok (p, clear t p)) /\
  (get_position k t = Ok (-1, t) ->
   retrieve k t = Ok (PyNone, t) /\ delete k t = Ok (-1, t)).
Proof.
  intros Hok. repeat split.
  - intros i Hi Hpre Hk.
    rewrite (get_position_reaches t k i Hok) by (lia || assumption).
    rewrite (range_cons i) by lia.
    apply get_position_loop_found; [assumption | lia | assumption].
  - intros i Hi Hpre Hf.
    apply get_position_reaches; [assumption | lia |].
    intros j Hj. destruct (Z.eq_dec j i) as [->|Hne].
    + apply free_not_key. exact Hf.
    + apply Hpre. lia.
  - intros Hall. destruct (Z_le_gt_dec (_m t) 0) as [Hm|Hm].
    + unfold get_position, bind, get_m. rewrite range_nil by lia. reflexivity.
    + rewrite (get_position_reaches t k (_m t) Hok) by (lia || assumption).
      rewrite range_nil by lia. reflexivity.
  - unfold retrieve, bind. rewrite H.
    destruct (Z.eqb_spec p (-1)); [contradiction|].
    destruct (getitem_occupied t p k v Hok H1) as [e [-> [_ <-]]]. reflexivity.
  - unfold delete, bind. rewrite H.
    destruct (Z.eqb_spec p (-1)); [contradiction|].
    unfold table_entry_delete, bind.
    destruct (getitem_occupied t p k v Hok H1) as [e [-> _]].
    rewrite table_setitem_ok
      by (assumption || eapply slot_at_bound; eassumption).
    reflexivity.
  - unfold retrieve, bind. rewrite H. reflexivity.
  - unfold delete, bind. rewrite H. reflexivity.
Qed.

(** C4. When [insert_brent(k, v)] arrives at iteration [i] (every
    earlier iteration went on to the next), with [hash = pos(k, i)]: a
    free slot at [hash] takes the entry and [hash] is returned; the key
    [k] at [hash] returns [-1]; for another key [existing] at [hash], if
    [alt1 = (hash - h2(k,m)) mod m] is free the entry is placed at [alt1]
    and [alt1] is returned; otherwise if
    [alt2 = (hash - h2(existing,m)) mod m] is free the occupant's key and
    value are moved to [alt2], the entry is placed at [hash] and [hash] is
    returned; otherwise the loop goes on with iteration [i + 1].  When all
    [m] iterations go on, [-1] is returned. *)
Theorem insert_brent_step {V} (t : HashTable V) (k : Z) (v : object V) :
  table_ok t ->
  (forall i, 0 <= i < _m t ->
     (forall j, 0 <= j < i -> brent_cont t k j) ->
     let hash := pos (_m t) k i in
     (free_at t hash -> insert_brent k v t = Ok (hash, write t hash k v)) /\
     (key_at t hash k -> insert_brent k v t = Ok (-1, t)) /\
     (forall existing ev,
        slot_at t hash = Some (Occupied existing ev) -> existing <> k ->
        let alt1 := (hash - h2 k (_m t)) mod _m t in
        let alt2 := (hash - h2 existing (_m t)) mod _m t in
        (free_at t alt1 ->
         insert_brent k v t = Ok (alt1, write t alt1 k v)) /\
        (~ free_at t alt1 -> free_at t alt2 ->
         insert_brent k v t
         = Ok (hash, write (write t alt2 existing ev) hash k v)) /\
        (~ free_at t alt1 -> ~ free_at t alt2 ->
         insert_brent k v t
         = insert_brent_loop k v (range (i + 1) (_m t)) t))) /\
  ((forall j, 0 <= j < _m t -> brent_cont t k j) ->
   insert_brent k v t = Ok (-1, t)).
Proof.
  intros Hok. split.
  - intros i Hi Hpre hash.
    pose proof (insert_brent_reaches t k v i Hok ltac:(lia) Hpre) as Hreach.
    rewrite (range_cons i) in Hreach by lia.
    assert (Hm : 0 < _m t) by lia.
    split; [|split].
    + intros Hf. rewrite Hreach. apply insert_brent_loop_free; assumption.
    + intros Hk. rewrite Hreach. apply insert_brent_loop_dup; assumption.
    + intros existing ev Hs Hne alt1 alt2. split; [|split].
      * intros Hf1. rewrite Hreach.
        eapply insert_brent_loop_skip_ahead; eassumption.
      * intros Hnf1 Hf2. rewrite Hreach.
        eapply insert_brent_loop_relocate; eassumption.
      * intros Hnf1 Hnf2.
        apply insert_brent_reaches; [assumption | lia |].
        intros j Hj. destruct (Z.eq_dec j i) as [->|Hji].
        -- exists existing, ev. auto.
        -- apply Hpre. lia.
  - intros Hall. destruct (Z_le_gt_dec (_m t) 0) as [Hm|Hm].
    + unfold insert_brent, bind, get_m. rewrite range_nil by lia. reflexivity.
    + rewrite (insert_brent_reaches t k v (_m t) Hok) by (lia || assumption).
      rewrite range_nil by lia. reflexivity.
Qed.

(** ** Slots after a write or a clear *)

Section Updates.
Context {V : Type}.
Implicit Types (t : HashTable V) (v : object V).

Lemma slot_at_write_eq t p k v :
  table_ok t -> 0 <= p < _m t -> slot_at (write t p k v) p = Some (Occupied k v).
Proof.
  intros Hok Hp. unfold slot_at, write. cbn [table].
  destruct (Z.ltb_spec p 0); [lia|].
  rewrite list_lookup_insert_eq by (unfold table_ok in Hok; lia). reflexivity.
Qed.

Lemma slot_at_write_ne t p q k v :
  0 <= p -> q <> p -> slot_at (write t p k v) q = slot_at t q.
Proof.
  intros Hp Hne. unfold slot_at, write. cbn [table].
  destruct (Z.ltb_spec q 0); [reflexivity|].
  rewrite list_lookup_insert_ne by lia. reflexivity.
Qed.

Lemma slot_at_clear_eq t p :
  table_ok t -> 0 <= p < _m t -> slot_at (clear t p) p = Some Tombstone.
Proof.
  intros Hok Hp. unfold slot_at, clear. cbn [table].
  destruct (Z.ltb_spec p 0); [lia|].
  rewrite list_lookup_insert_eq by (unfold table_ok in Hok; lia). reflexivity.
Qed.

Lemma slot_at_clear_ne t p q :
  0 <= p -> q <> p -> slot_at (clear t p) q = slot_at t q.
Proof.
  intros Hp Hne. unfold slot_at, clear. cbn [table].
  destruct (Z.ltb_spec q 0); [reflexivity|].
  rewrite list_lookup_insert_ne by lia. reflexivity.
Qed.

(** A key found after a write is the written one or was there before. *)
Lemma key_at_write_inv t p q k k' v :
  table_ok t -> 0 <= p < _m t ->
  key_at (write t p k v) q k' -> (q = p /\ k' = k) \/ (q <> p /\ key_at t q k').
Proof.
  intros Hok Hp [v' Hs]. destruct (Z.eq_dec q p) as [->|Hne].
  - rewrite slot_at_write_eq in Hs by assumption. injection Hs as -> _.
    left. split; reflexivity.
  - rewrite slot_at_write_ne in Hs by lia. right. split; [assumption|].
    exists v'. exact Hs.
Qed.

Lemma key_at_clear_inv t p q k' :
  table_ok t -> 0 <= p < _m t ->
  key_at (clear t p) q k' -> q <> p /\ key_at t q k'.
Proof.
  intros Hok Hp [v' Hs]. destruct (Z.eq_dec q p) as [->|Hne].
  - rewrite slot_at_clear_eq in Hs by assumption. discriminate.
  - rewrite slot_at_clear_ne in Hs by lia. split; [assumption|].
    exists v'. exact Hs.
Qed.

Lemma on_probe_write t p k v :
  table_ok t -> on_probe t -> 0 <= p < _m t ->
  (exists i, 0 <= i < _m t /\ p = pos (_m t) k i) ->
  on_probe (write t p k v).
Proof.
  intros Hok Hon Hp Hi q k' Hk. cbn [write _m].
  destruct (key_at_write_inv t p q k k' v Hok Hp Hk) as [[-> ->]|[_ Hq]].
  - exact Hi.
  - apply Hon. exact Hq.
Qed.

Lemma on_probe_clear t p :
  table_ok t -> on_probe t -> 0 <= p < _m t -> on_probe (clear t p).
Proof.
  intros Hok Hon Hp q k' Hk. cbn [clear _m].
  destruct (key_at_clear_inv t p q k' Hok Hp Hk) as [_ Hq].
  apply Hon. exact Hq.
Qed.

Lemma free_dec t p : table_ok t -> 0 <= p < _m t -> free_at t p \/ ~ free_at t p.
Proof.
  intros Hok Hp. destruct (slot_cases t p 0 Hok Hp) as [Hf|[Hk|Ho]].
  - left. exact Hf.
  - right. eapply key_not_free. exact Hk.
  - right. eapply other_not_free. exact Ho.
Qed.
End Updates.

(** ** The outcomes of a call on a well-formed table *)

Section Outcomes.
Context {V : Type}.
Implicit Types (t : HashTable V) (v : object V).

Lemma insert_outcome t k v :
  table_ok t ->
  insert k v t = Ok (-1, t) \/
  exists i, 0 <= i < _m t /\
    (forall j, 0 <= j < i -> other_at t (pos (_m t) k j) k) /\
    free_at t (pos (_m t) k i) /\
    insert k v t = Ok (pos (_m t) k i, write t (pos (_m t) k i) k v).
Proof.
  intros Hok. destruct (Z_le_gt_dec (_m t) 0) as [Hm|Hm].
  { left. unfold insert, bind, get_m. rewrite range_nil by lia. reflexivity. }
  destruct (first_index
              (fun j => other_at t (pos (_m t) k j) k)
              (fun j => free_at t (pos (_m t) k j) \/ key_at t (pos (_m t) k j) k)
              (_m t) ltac:(lia)) as [Hall|(i & Hi & Hpre & Hq)].
  - intros j Hj.
    destruct (slot_cases t (pos (_m t) k j) k Hok (pos_range (_m t) k j ltac:(lia)))
      as [Hf|[Hk|Ho]]; [right; left | right; right | left]; assumption.
  - left. rewrite (insert_reaches t k v (_m t) Hok) by (lia || assumption).
    rewrite range_nil by lia. reflexivity.
  - pose proof (insert_reaches t k v i Hok ltac:(lia) Hpre) as Hreach.
    rewrite (range_cons i) in Hreach by lia.
    destruct Hq as [Hf|Hk].
    + right. exists i. split; [lia|]. split; [assumption|]. split; [assumption|].
      rewrite Hreach. apply insert_loop_free; [assumption | lia | assumption].
    + left. rewrite Hreach. apply insert_loop_dup; [assumption | lia | assumption].
Qed.

Lemma get_position_outcome t k :
  table_ok t ->
  (get_position k t = Ok (-1, t) /\
   forall j, 0 <= j < _m t -> ~ key_at t (pos (_m t) k j) k) \/
  exists i, 0 <= i < _m t /\
    (forall j, 0 <= j < i -> ~ key_at t (pos (_m t) k j) k) /\
    key_at t (pos (_m t) k i) k /\
    get_position k t = Ok (pos (_m t) k i, t).
Proof.
  intros Hok. destruct (Z_le_gt_dec (_m t) 0) as [Hm|Hm].
  { left. split; [|intros j Hj; lia].
    unfold get_position, bind, get_m. rewrite range_nil by lia. reflexivity. }
  destruct (first_index
              (fun j => ~ key_at t (pos (_m t) k j) k)
              (fun j => key_at t (pos (_m t) k j) k)
              (_m t) ltac:(lia)) as [Hall|(i & Hi & Hpre & Hq)].
  - intros j Hj.
    destruct (slot_cases t (pos (_m t) k j) k Hok (pos_range (_m t) k j ltac:(lia)))
      as [Hf|[Hk|Ho]].
    + left. apply free_not_key. exact Hf.
    + right. exact Hk.
    + left. apply other_not_key. exact Ho.
  - left. split; [|exact Hall].
    rewrite (get_position_reaches t k (_m t) Hok) by (lia || assumption).
    rewrite range_nil by lia. reflexivity.
  - right. exists i. split; [lia|]. split; [assumption|]. split; [assumption|].
    rewrite (get_position_reaches t k i Hok) by (lia || assumption).
    rewrite (range_cons i) by lia.
    apply get_position_loop_found; [assumption | lia | assumption].
Qed.

(** An iteration of [insert_brent] goes on, or it is one of the four
    that end the loop. *)
Lemma brent_cases t k i :
  table_ok t -> 0 < _m t ->
  brent_cont t k i \/
  (free_at t (pos (_m t) k i) \/
   key_at t (pos (_m t) k i) k \/
   exists existing ev,
     slot_at t (pos (_m t) k i) = Some (Occupied existing ev) /\ existing <> k /\
     (free_at t ((pos (_m t) k i - h2 k (_m t)) mod _m t) \/
      (~ free_at t ((pos (_m t) k i - h2 k (_m t)) mod _m t) /\
       free_at t ((pos (_m t) k i - h2 existing (_m t)) mod _m t)))).
Proof.
  intros Hok Hm.
  destruct (slot_cases t (pos (_m t) k i) k Hok (pos_range _ k i Hm))
    as [Hf|[Hk|(existing & ev & Hs & Hne)]].
  - right. left. exact Hf.
  - right. right. left. exact Hk.
  - destruct (free_dec t ((pos (_m t) k i - h2 k (_m t)) mod _m t) Hok
                (Z.mod_pos_bound _ _ Hm)) as [Hf1|Hnf1].
    + right. right. right. exists existing, ev. auto.
    + destruct (free_dec t ((pos (_m t) k i - h2 existing (_m t)) mod _m t) Hok
                  (Z.mod_pos_bound _ _ Hm)) as [Hf2|Hnf2].
      * right. right. right. exists existing, ev. auto.
      * left. exists existing, ev. auto.
Qed.

Lemma insert_brent_outcome t k v :
  table_ok t ->
  insert_brent k v t = Ok (-1, t) \/
  exists i, 0 <= i < _m t /\
    (forall j, 0 <= j < i -> brent_cont t k j) /\
    ((free_at t (pos (_m t) k i) /\
      insert_brent k v t = Ok (pos (_m t) k i, write t (pos (_m t) k i) k v)) \/
     (exists existing ev,
        slot_at t (pos (_m t) k i) = Some (Occupied existing ev) /\ existing <> k /\
        free_at t ((pos (_m t) k i - h2 k (_m t)) mod _m t) /\
        insert_brent k v t
        = Ok ((pos (_m t) k i - h2 k (_m t)) mod _m t,
              write t ((pos (_m t) k i - h2 k (_m t)) mod _m t) k v)) \/
     (exists existing ev,
        slot_at t (pos (_m t) k i) = Some (Occupied existing ev) /\ existing <> k /\
        ~ free_at t ((pos (_m t) k i - h2 k (_m t)) mod _m t) /\
        free_at t ((pos (_m t) k i - h2 existing (_m t)) mod _m t) /\
        insert_brent k v t
        = Ok (pos (_m t) k i,
              write (write t ((pos (_m t) k i - h2 existing (_m t)) mod _m t)
                           existing ev)
                    (pos (_m t) k i) k v))).
Proof.
  intros Hok. destruct (Z_le_gt_dec (_m t) 0) as [Hm|Hm].
  { left. unfold insert_brent, bind, get_m. rewrite range_nil by lia. reflexivity. }
  assert (Hm' : 0 < _m t) by lia.
  destruct (first_index (brent_cont t k) _ (_m t) ltac:(lia)
              (fun j _ => brent_cases t k j Hok Hm'))
    as [Hall|(i & Hi & Hpre & Hq)].
  - left. rewrite (insert_brent_reaches t k v (_m t) Hok) by (lia || assumption).
    rewrite range_nil by lia. reflexivity.
  - pose proof (insert_brent_reaches t k v i Hok ltac:(lia) Hpre) as Hreach.
    rewrite (range_cons i) in Hreach by lia.
    destruct Hq as [Hf|[Hk|(existing & ev & Hs & Hne & [Hf1|[Hnf1 Hf2]])]].
    + right. exists i. split; [lia|]. split; [assumption|]. left.
      split; [assumption|]. rewrite Hreach.
      apply insert_brent_loop_free; assumption.
    + left. rewrite Hreach. apply insert_brent_loop_dup; assumption.
    + right. exists i. split; [lia|]. split; [assumption|]. right. left.
      exists existing, ev. split; [assumption|]. split; [assumption|].
      split; [assumption|].
      rewrite Hreach. eapply insert_brent_loop_skip_ahead; eassumption.
    + right. exists i. split; [lia|]. split; [assumption|]. right. right.
      exists existing, ev. split; [assumption|]. split; [assumption|].
      split; [assumption|]. split; [assumption|].
      rewrite Hreach. eapply insert_brent_loop_relocate; eassumption.
Qed.
End Outcomes.

(** ** Lookup, [retrieve] and [delete] *)

Section Lookup.
Context {V : Type}.
Implicit Types (t : HashTable V) (v : object V).

Lemma retrieve_found t k p v :
  table_ok t -> get_position k t = Ok (p, t) ->
  slot_at t p = Some (Occupied k v) -> retrieve k t = Ok (v, t).
Proof.
  intros Hok Hg Hs. pose proof (slot_at_bound t p _ Hok Hs) as Hp.
  unfold retrieve, bind. rewrite Hg.
  destruct (Z.eqb_spec p (-1)); [lia|].
  destruct (getitem_occupied t p k v Hok Hs) as [e [-> [_ <-]]]. reflexivity.
Qed.

Lemma delete_found t k p v :
  table_ok t -> get_position k t = Ok (p, t) ->
  slot_at t p = Some (Occupied k v) -> delete k t = Ok (p, clear t p).
Proof.
  intros Hok Hg Hs. pose proof (slot_at_bound t p _ Hok Hs) as Hp.
  unfold delete, bind. rewrite Hg.
  destruct (Z.eqb_spec p (-1)); [lia|].
  unfold table_entry_delete, bind.
  destruct (getitem_occupied t p k v Hok Hs) as [e [-> _]].
  rewrite table_setitem_ok by assumption. reflexivity.
Qed.

Lemma retrieve_none t k :
  get_position k t = Ok (-1, t) -> retrieve k t = Ok (PyNone, t).
Proof. intros Hg. unfold retrieve, bind. rewrite Hg. reflexivity. Qed.

Lemma delete_none t k :
  get_position k t = Ok (-1, t) -> delete k t = Ok (-1, t).
Proof. intros Hg. unfold delete, bind. rewrite Hg. reflexivity. Qed.

(** Lookup of a key that no slot holds. *)
Lemma get_position_absent t k :
  table_ok t -> absent t k -> get_position k t = Ok (-1, t).
Proof.
  intros Hok Habs.
  destruct (get_position_outcome t k Hok) as [[Hg _]|(i & _ & _ & Hk & _)].
  - exact Hg.
  - exfalso. exact (Habs _ Hk).
Qed.

(** Lookup when probe [i] holds the key and no earlier probe holds it at
    another position. *)
Lemma get_position_at t k i :
  table_ok t -> 0 <= i < _m t ->
  key_at t (pos (_m t) k i) k ->
  (forall j, 0 <= j < i -> key_at t (pos (_m t) k j) k ->
             pos (_m t) k j = pos (_m t) k i) ->
  get_position k t = Ok (pos (_m t) k i, t).
Proof.
  intros Hok Hi Hk Hfirst.
  destruct (get_position_outcome t k Hok)
    as [[_ Hnone]|(i' & Hi' & Hpre & Hk' & Hg)].
  - exfalso. exact (Hnone i Hi Hk).
  - rewrite Hg. destruct (Z_lt_le_dec i i') as [Hlt|Hle].
    + exfalso. apply (Hpre i); [lia | exact Hk].
    + destruct (Z.eq_dec i' i) as [->|Hne]; [reflexivity|].
      rewrite (Hfirst i') by (lia || assumption). reflexivity.
Qed.

(** A key on its own probe sequence is found. *)
Lemma get_position_finds t k p :
  table_ok t -> on_probe t -> key_at t p k ->
  exists q v', get_position k t = Ok (q, t) /\
               slot_at t q = Some (Occupied k v') /\
               retrieve k t = Ok (v', t).
Proof.
  intros Hok Hon Hk.
  destruct (get_position_outcome t k Hok)
    as [[_ Hnone]|(i & Hi & _ & [v' Hs] & Hg)].
  - exfalso. destruct (Hon p k Hk) as (i & Hi & ->). exact (Hnone i Hi Hk).
  - exists (pos (_m t) k i), v'. split; [exact Hg|]. split; [exact Hs|].
    eapply retrieve_found; eassumption.
Qed.

Lemma slot_at_functional t p k v k' v' :
  slot_at t p = Some (Occupied k v) -> slot_at t p = Some (Occupied k' v') ->
  k = k' /\ v = v'.
Proof. intros H1 H2. rewrite H1 in H2. injection H2 as -> ->. split; reflexivity. Qed.

(** After a successful [insert] the key is found where it was put. *)
Lemma insert_then_lookup t k v r t' :
  table_ok t -> insert k v t = Ok (r, t') -> r <> -1 ->
  table_ok t' /\ 0 <= r < _m t /\ _m t' = _m t /\
  slot_at t' r = Some (Occupied k v) /\
  get_position k t' = Ok (r, t') /\ retrieve k t' = Ok (v, t').
Proof.
  intros Hok Hins Hr.
  destruct (insert_outcome t k v Hok) as [E|(i & Hi & Hpre & Hf & E)];
    rewrite E in Hins; injection Hins as <- <-; [contradiction|].
  assert (Hm : 0 < _m t) by lia.
  pose proof (pos_range (_m t) k i Hm) as Hp.
  pose proof (table_ok_write t (pos (_m t) k i) k v Hok) as Hok'.
  pose proof (slot_at_write_eq t (pos (_m t) k i) k v Hok Hp) as Hs'.
  assert (Hg : get_position k (write t (pos (_m t) k i) k v)
               = Ok (pos (_m t) k i, write t (pos (_m t) k i) k v)).
  { apply (get_position_at (write t (pos (_m t) k i) k v) k i Hok' Hi).
    - exists v. exact Hs'.
    - cbn [write _m]. intros j Hj Hkj.
      destruct (Z.eq_dec (pos (_m t) k j) (pos (_m t) k i)) as [Heq|Hne];
        [exact Heq|exfalso].
      destruct Hkj as [w Hw]. rewrite slot_at_write_ne in Hw by lia.
      apply (other_not_key t _ k (Hpre j Hj)). exists w. exact Hw. }
  split; [exact Hok'|]. split; [exact Hp|]. split; [reflexivity|].
  split; [exact Hs'|]. split; [exact Hg|].
  eapply retrieve_found; eassumption.
Qed.
End Lookup.

(** ** The invariants of the table *)

Section Invariants.
Context {V : Type}.
Implicit Types (t : HashTable V) (v : object V).

Lemma init_table_ok size : table_ok (@HashTable_init V size).
Proof. unfold table_ok, HashTable_init. cbn. apply length_replicate. Qed.

Lemma init_slot size p s :
  slot_at (@HashTable_init V size) p = Some s -> s = Empty.
Proof.
  intros Hs. apply slot_at_inv in Hs. destruct Hs as [_ [cell [Hc ->]]].
  cbn in Hc. apply lookup_replicate in Hc. destruct Hc as [-> _]. reflexivity.
Qed.

Lemma init_absent size k : absent (@HashTable_init V size) k.
Proof. intros p [v Hs]. apply init_slot in Hs. discriminate. Qed.

Lemma init_on_probe size : on_probe (@HashTable_init V size).
Proof. intros p k Hk. exfalso. exact (init_absent size k p Hk). Qed.

Lemma insert_inv t k v :
  table_ok t -> on_probe t ->
  exists r t', insert k v t = Ok (r, t') /\
    table_ok t' /\ on_probe t' /\ _m t' = _m t /\ (r = -1 \/ 0 <= r < _m t).
Proof.
  intros Hok Hon.
  destruct (insert_outcome t k v Hok) as [E|(i & Hi & Hpre & Hf & E)].
  - exists (-1), t. auto 6.
  - assert (Hp : 0 <= pos (_m t) k i < _m t) by (apply pos_range; lia).
    eexists _, _. split; [exact E|].
    split; [apply table_ok_write; exact Hok|].
    split; [|split; [reflexivity | right; exact Hp]].
    apply on_probe_write; try assumption. exists i. split; [lia | reflexivity].
Qed.

Lemma insert_brent_inv t k v :
  table_ok t -> on_probe t ->
  exists r t', insert_brent k v t = Ok (r, t') /\
    table_ok t' /\ on_probe t' /\ _m t' = _m t /\ (r = -1 \/ 0 <= r < _m t).
Proof.
  intros Hok Hon.
  destruct (insert_brent_outcome t k v Hok)
    as [E|(i & Hi & Hpre &
           [[Hf E]|[(e & ev & Hs & Hne & Hf1 & E)
                   |(e & ev & Hs & Hne & Hnf1 & Hf2 & E)]])].
  - exists (-1), t. auto 6.
  - assert (Hp : 0 <= pos (_m t) k i < _m t) by (apply pos_range; lia).
    eexists _, _. split; [exact E|].
    split; [apply table_ok_write; exact Hok|].
    split; [|split; [reflexivity | right; exact Hp]].
    apply on_probe_write; try assumption. exists i. split; [lia | reflexivity].
  - assert (Hp : 0 <= (pos (_m t) k i - h2 k (_m t)) mod _m t < _m t)
      by (apply Z.mod_pos_bound; lia).
    eexists _, _. split; [exact E|].
    split; [apply table_ok_write; exact Hok|].
    split; [|split; [reflexivity | right; exact Hp]].
    apply on_probe_write; try assumption.
    destruct (pos_step_on_probe (_m t) k i Hi) as (j & Hj & Ej).
    exists j. split; assumption.
  - assert (Hp : 0 <= pos (_m t) k i < _m t) by (apply pos_range; lia).
    assert (Hp2 : 0 <= (pos (_m t) k i - h2 e (_m t)) mod _m t < _m t)
      by (apply Z.mod_pos_bound; lia).
    eexists _, _. split; [exact E|].
    split; [apply table_ok_write, table_ok_write; exact Hok|].
    split; [|split; [reflexivity | right; exact Hp]].
    apply on_probe_write.
    + apply table_ok_write; exact Hok.
    + apply on_probe_write; try assumption.
      destruct (Hon (pos (_m t) k i) e (ex_intro _ ev Hs)) as (j & Hj & Ej).
      rewrite Ej. apply pos_step_on_probe. exact Hj.
    + exact Hp.
    + exists i. split; [exact Hi | reflexivity].
Qed.

Lemma retrieve_inv t k :
  table_ok t -> exists r, retrieve k t = Ok (r, t).
Proof.
  intros Hok.
  destruct (get_position_outcome t k Hok) as [[Hg _]|(i & Hi & _ & [v Hs] & Hg)].
  - exists PyNone. apply retrieve_none. exact Hg.
  - exists v. eapply retrieve_found; eassumption.
Qed.

Lemma delete_inv t k :
  table_ok t -> on_probe t ->
  exists r t', delete k t = Ok (r, t') /\
    table_ok t' /\ on_probe t' /\ _m t' = _m t /\ (r = -1 \/ 0 <= r < _m t).
Proof.
  intros Hok Hon.
  destruct (get_position_outcome t k Hok) as [[Hg _]|(i & Hi & _ & [v Hs] & Hg)].
  - exists (-1), t. split; [apply delete_none; exact Hg|]. auto 6.
  - assert (Hp : 0 <= pos (_m t) k i < _m t) by (apply pos_range; lia).
    eexists _, _. split; [eapply delete_found; eassumption|].
    split; [apply table_ok_clear; exact Hok|].
    split; [apply on_probe_clear; assumption|].
    split; [reflexivity | right; exact Hp].
Qed.

Lemma run_op_inv t (o : op V) :
  table_ok t -> on_probe t ->
  exists r t', run_op o t = Ok (r, t') /\
    table_ok t' /\ on_probe t' /\ _m t' = _m t /\ ordinary (_m t) r.
Proof.
  intros Hok Hon. destruct o as [k v|k v|k|k]; cbn [run_op]; unfold bind.
  - destruct (insert_inv t k v Hok Hon) as (r & t' & -> & H).
    exists (RInt r), t'. split; [reflexivity | exact H].
  - destruct (insert_brent_inv t k v Hok Hon) as (r & t' & -> & H).
    exists (RInt r), t'. split; [reflexivity | exact H].
  - destruct (retrieve_inv t k Hok) as (r & ->).
    exists (RObj r), t. cbn. auto.
  - destruct (delete_inv t k Hok Hon) as (r & t' & -> & H).
    exists (RInt r), t'. split; [reflexivity | exact H].
Qed.

Lemma run_ops_inv (ops : list (op V)) t :
  table_ok t -> on_probe t ->
  exists rs t', run_ops ops t = Ok (rs, t') /\
    table_ok t' /\ on_probe t' /\ _m t' = _m t /\ Forall (ordinary (_m t)) rs.
Proof.
  revert t. induction ops as [|o ops IH]; intros t Hok Hon.
  - exists [], t. cbn. auto 6.
  - destruct (run_op_inv t o Hok Hon) as (r & t1 & E1 & Hok1 & Hon1 & Hm1 & Hr).
    destruct (IH t1 Hok1 Hon1) as (rs & t2 & E2 & Hok2 & Hon2 & Hm2 & Hrs).
    exists (r :: rs), t2. cbn [run_ops]. unfold bind. rewrite E1, E2.
    split; [reflexivity|]. split; [assumption|]. split; [assumption|].
    split; [congruence|]. constructor; [assumption|]. rewrite <- Hm1. exact Hrs.
Qed.

Lemma reachable_inv t : reachable t -> table_ok t /\ on_probe t.
Proof.
  intros (size & ops & rs & E).
  destruct (run_ops_inv ops (HashTable_init size)
              (init_table_ok size) (init_on_probe size))
    as (rs' & t' & E' & Hok & Hon & _).
  rewrite E in E'. injection E' as _ <-. split; assumption.
Qed.
End Invariants.

(** ** Failing calls and degenerate capacities *)

Section Failures.
Context {V : Type}.
Implicit Types (t : HashTable V) (v : object V).

Lemma insert_failed_same t k v t' :
  table_ok t -> insert k v t = Ok (-1, t') -> t' = t.
Proof.
  intros Hok H.
  destruct (insert_outcome t k v Hok) as [E|(i & Hi & _ & _ & E)];
    rewrite E in H; injection H.
  - intros <-. reflexivity.
  - intros _ Hp. pose proof (pos_range (_m t) k i ltac:(lia)). lia.
Qed.

Lemma insert_brent_failed_same t k v t' :
  table_ok t -> insert_brent k v t = Ok (-1, t') -> t' = t.
Proof.
  intros Hok H.
  destruct (insert_brent_outcome t k v Hok)
    as [E|(i & Hi & _ &
           [[_ E]|[(e & ev & _ & _ & _ & E)|(e & ev & _ & _ & _ & _ & E)]])];
    rewrite E in H; injection H.
  - intros <-. reflexivity.
  - intros _ Hp. pose proof (pos_range (_m t) k i ltac:(lia)). lia.
  - intros _ Hp.
    pose proof (Z.mod_pos_bound (pos (_m t) k i - h2 k (_m t)) (_m t) ltac:(lia)).
    lia.
  - intros _ Hp. pose proof (pos_range (_m t) k i ltac:(lia)). lia.
Qed.

Lemma run_op_capacity t (o : op V) r t' :
  table_ok t -> run_op o t = Ok (r, t') ->
  _m t' = _m t /\ length (table t') = length (table t).
Proof.
  intros Hok H. destruct o as [k v|k v|k|k]; cbn [run_op] in H;
    apply bind_inv in H; destruct H as (a & t1 & H & Hret);
    injection Hret as _ <-.
  - destruct (insert_outcome t k v Hok) as [E|(i & _ & _ & _ & E)];
      rewrite E in H; injection H as _ <-; [split; reflexivity|].
    cbn. rewrite length_insert. split; reflexivity.
  - destruct (insert_brent_outcome t k v Hok)
      as [E|(i & _ & _ &
             [[_ E]|[(e & ev & _ & _ & _ & E)|(e & ev & _ & _ & _ & _ & E)]])];
      rewrite E in H; injection H as _ <-; [split; reflexivity| | |];
      cbn; rewrite ?length_insert; split; reflexivity.
  - destruct (retrieve_inv t k Hok) as (r' & E). rewrite E in H.
    injection H as _ <-. split; reflexivity.
  - destruct (get_position_outcome t k Hok) as [[Hg _]|(i & _ & _ & [v Hs] & Hg)].
    + rewrite (delete_none t k Hg) in H. injection H as _ <-. split; reflexivity.
    + rewrite (delete_found t k _ v Hok Hg Hs) in H. injection H as _ <-.
      cbn. rewrite length_insert. split; reflexivity.
Qed.

(** With no capacity the loops have no iteration. *)
Lemma run_op_no_capacity t (o : op V) :
  _m t <= 0 -> exists r, run_op o t = Ok (r, t) /\ is_failure r = true.
Proof.
  intros Hm. destruct o as [k v|k v|k|k]; cbn [run_op].
  - exists (RInt (-1)). split; [|reflexivity].
    unfold insert, bind, get_m. rewrite range_nil by lia. reflexivity.
  - exists (RInt (-1)). split; [|reflexivity].
    unfold insert_brent, bind, get_m. rewrite range_nil by lia. reflexivity.
  - exists (RObj PyNone). split; [|reflexivity].
    unfold retrieve, get_position, bind, get_m. rewrite range_nil by lia. reflexivity.
  - exists (RInt (-1)). split; [|reflexivity].
    unfold delete, get_position, bind, get_m. rewrite range_nil by lia. reflexivity.
Qed.

Lemma run_ops_no_capacity (ops : list (op V)) t :
  _m t <= 0 ->
  exists rs, run_ops ops t = Ok (rs, t) /\ Forall (fun r => is_failure r = true) rs.
Proof.
  intros Hm. induction ops as [|o ops (rs & E & Hrs)].
  - exists []. split; [reflexivity | constructor].
  - destruct (run_op_no_capacity t o Hm) as (r & E1 & Hr).
    exists (r :: rs). cbn [run_ops]. unfold bind. rewrite E1, E.
    split; [reflexivity | constructor; assumption].
Qed.
End Failures.

(** C6. When [insert(k, v)] or [insert_brent(k, v)] returns [-1]
    (duplicate key, or no free slot along the probe sequence), the table
    is the one before the call, slot for slot; and no operation changes
    the capacity [m] or the number of slots. *)
Theorem failed_insert_leaves_table {V} (t : HashTable V) (k : Z) (v : object V) :
  table_ok t ->
  (forall t', insert k v t = Ok (-1, t') -> t' = t) /\
  (forall t', insert_brent k v t = Ok (-1, t') -> t' = t) /\
  (forall o r t', run_op o t = Ok (r, t') ->
     _m t' = _m t /\ length (table t') = length (table t)).
Proof.
  intros Hok. split; [|split].
  - intros t'. apply insert_failed_same. exact Hok.
  - intros t'. apply insert_brent_failed_same. exact Hok.
  - intros o r t'. apply run_op_capacity. exact Hok.
Qed.

(** C7. For a key [k] that no slot holds, [delete(k)] returns [-1] and
    leaves the table as it was, so every [retrieve] answers after the call
    as before it; [retrieve(k)] returns [None] and leaves the table as it
    was. *)
Theorem delete_absent_is_noop {V} (t : HashTable V) (k : Z) :
  table_ok t -> absent t k ->
  delete k t = Ok (-1, t) /\
  retrieve k t = Ok (PyNone, t) /\
  (forall r t', delete k t = Ok (r, t') ->
     t' = t /\ forall k', retrieve k' t' = retrieve k' t).
Proof.
  intros Hok Habs. pose proof (get_position_absent t k Hok Habs) as Hg.
  pose proof (delete_none t k Hg) as Hd.
  split; [exact Hd|]. split; [apply retrieve_none; exact Hg|].
  intros r t' H. rewrite Hd in H. injection H as _ <-.
  split; [reflexivity|]. intros k'. reflexivity.
Qed.

(** C8. For every capacity [size >= 0] and every sequence of [insert],
    [insert_brent], [retrieve] and [delete] calls with integer keys, no
    call raises (no [ZeroDivisionError], [IndexError], [AttributeError] or
    [TypeError]): the run ends with an ordinary list of returned values,
    each [int] being [-1] or an index below [size]; with capacity 0 every
    call returns the failure value [-1] or [None]. *)
Theorem no_call_raises {V} (size : Z) (ops : list (op V)) :
  0 <= size ->
  exists rs t,
    run_ops ops (HashTable_init size) = Ok (rs, t) /\
    _m t = size /\
    Forall (ordinary size) rs /\
    (size = 0 -> Forall (fun r => is_failure r = true) rs).
Proof.
  intros Hsize.
  destruct (run_ops_inv ops (HashTable_init size)
              (init_table_ok size) (init_on_probe size))
    as (rs & t & E & _ & _ & Hm & Hrs).
  exists rs, t. split; [exact E|]. split; [exact Hm|]. split; [exact Hrs|].
  intros ->. destruct (run_ops_no_capacity ops (@HashTable_init V 0)) as (rs' & E' & H').
  - cbn. lia.
  - rewrite E in E'. injection E' as -> _. exact H'.
Qed.

(** ** Relocation by [insert_brent] *)

Section Relocation.
Context {V : Type}.
Implicit Types (t : HashTable V) (v : object V).

Lemma free_occupied_ne t p q k v :
  free_at t p -> slot_at t q = Some (Occupied k v) -> p <> q.
Proof.
  intros Hf Hs ->. exact (free_not_key t q k Hf (ex_intro _ v Hs)).
Qed.

(** The relocating iteration: where the two entries end up. *)
Lemma relocated_entry t k v i existing ev :
  table_ok t -> on_probe t -> 0 <= i < _m t ->
  (forall j, 0 <= j < i -> brent_cont t k j) ->
  slot_at t (pos (_m t) k i) = Some (Occupied existing ev) -> existing <> k ->
  ~ free_at t ((pos (_m t) k i - h2 k (_m t)) mod _m t) ->
  free_at t ((pos (_m t) k i - h2 existing (_m t)) mod _m t) ->
  exists t',
    insert_brent k v t = Ok (pos (_m t) k i, t') /\
    slot_at t' (pos (_m t) k i) = Some (Occupied k v) /\
    slot_at t' ((pos (_m t) k i - h2 existing (_m t)) mod _m t)
    = Some (Occupied existing ev) /\
    (exists j, 0 <= j < _m t /\
       (pos (_m t) k i - h2 existing (_m t)) mod _m t = pos (_m t) existing j) /\
    (exists q v', get_position existing t' = Ok (q, t') /\
                  slot_at t' q = Some (Occupied existing v') /\
                  retrieve existing t' = Ok (v', t')).
Proof.
  intros Hok Hon Hi Hpre Hs Hne Hnf1 Hf2.
  assert (Hm : 0 < _m t) by lia.
  set (hash := pos (_m t) k i) in *.
  set (alt2 := (hash - h2 existing (_m t)) mod _m t) in *.
  assert (Hp : 0 <= hash < _m t) by (apply pos_range; exact Hm).
  assert (Hp2 : 0 <= alt2 < _m t) by (apply Z.mod_pos_bound; exact Hm).
  assert (Hdiff : alt2 <> hash) by (eapply free_occupied_ne; eassumption).
  assert (Hok1 : table_ok (write t alt2 existing ev)) by (apply table_ok_write; exact Hok).
  assert (E : insert_brent k v t
              = Ok (hash, write (write t alt2 existing ev) hash k v)).
  { rewrite (insert_brent_reaches t k v i Hok) by (lia || assumption).
    rewrite (range_cons i) by lia.
    eapply insert_brent_loop_relocate; eassumption. }
  assert (Hs2 : slot_at (write (write t alt2 existing ev) hash k v) alt2
                = Some (Occupied existing ev)).
  { rewrite slot_at_write_ne by lia. apply slot_at_write_eq; assumption. }
  destruct (insert_brent_inv t k v Hok Hon) as (r & t1 & E1 & Hok' & Hon' & _).
  rewrite E in E1. injection E1 as _ <-.
  eexists. split; [exact E|].
  split; [apply slot_at_write_eq; assumption|].
  split; [exact Hs2|]. split.
  - destruct (Hon hash existing (ex_intro _ ev Hs)) as (j & Hj & Ej).
    unfold alt2. rewrite Ej. apply pos_step_on_probe. exact Hj.
  - eapply get_position_finds; [exact Hok' | exact Hon' |].
    exists ev. exact Hs2.
Qed.
(** A key found by lookup or held by one slot only is found in that slot. *)
Lemma found_in_own_slot t k p v :
  table_ok t -> on_probe t -> slot_at t p = Some (Occupied k v) ->
  get_position k t = Ok (p, t) \/ unique_key t k ->
  get_position k t = Ok (p, t).
Proof.
  intros Hok Hon Hs [Hg|Hu]; [exact Hg|].
  destruct (get_position_finds t k p Hok Hon (ex_intro _ v Hs))
    as (q & v' & Hg & Hq & _).
  rewrite (Hu q p (ex_intro _ v' Hq) (ex_intro _ v Hs)) in Hg. exact Hg.
Qed.

(** The relocated entry, when it was the one lookup found for its key, is
    the one lookup finds afterwards, in the slot it was moved to. *)
Lemma relocated_entry_stays_found t k v i existing ev :
  table_ok t -> 0 <= i < _m t ->
  (forall j, 0 <= j < i -> brent_cont t k j) ->
  slot_at t (pos (_m t) k i) = Some (Occupied existing ev) -> existing <> k ->
  ~ free_at t ((pos (_m t) k i - h2 k (_m t)) mod _m t) ->
  free_at t ((pos (_m t) k i - h2 existing (_m t)) mod _m t) ->
  get_position existing t = Ok (pos (_m t) k i, t) ->
  exists t',
    insert_brent k v t = Ok (pos (_m t) k i, t') /\
    slot_at t' ((pos (_m t) k i - h2 existing (_m t)) mod _m t)
    = Some (Occupied existing ev) /\
    get_position existing t'
    = Ok ((pos (_m t) k i - h2 existing (_m t)) mod _m t, t') /\
    retrieve existing t' = Ok (ev, t').
Proof.
  intros Hok Hi Hpre Hs Hne Hnf1 Hf2 Hg.
  assert (Hm : 0 < _m t) by lia.
  set (hash := pos (_m t) k i) in *.
  set (alt2 := (hash - h2 existing (_m t)) mod _m t) in *.
  assert (Hp : 0 <= hash < _m t) by (apply pos_range; exact Hm).
  assert (Hp2 : 0 <= alt2 < _m t) by (apply Z.mod_pos_bound; exact Hm).
  assert (Hdiff : alt2 <> hash) by (eapply free_occupied_ne; eassumption).
  pose proof (table_ok_write t alt2 existing ev Hok) as Hok1.
  pose proof (table_ok_write (write t alt2 existing ev) hash k v Hok1) as Hok'.
  set (t' := write (write t alt2 existing ev) hash k v) in *.
  assert (E : insert_brent k v t = Ok (hash, t')).
  { rewrite (insert_brent_reaches t k v i Hok) by (lia || assumption).
    rewrite (range_cons i) by lia.
    eapply insert_brent_loop_relocate; eassumption. }
  assert (Hs2 : slot_at t' alt2 = Some (Occupied existing ev)).
  { unfold t'. rewrite slot_at_write_ne by lia. apply slot_at_write_eq; assumption. }
  (* where the entry was found before *)
  destruct (get_position_outcome t existing Hok)
    as [[Hg0 _]|(i0 & Hi0 & Hpre0 & Hk0 & Hg0)];
    rewrite Hg0 in Hg; injection Hg as Ehash; [lia|].
  (* the slots that hold the key afterwards *)
  assert (Hinv : forall q, key_at t' q existing ->
                           q = alt2 \/ (q <> hash /\ key_at t q existing)).
  { intros q Hq.
    destruct (key_at_write_inv _ hash q k existing v Hok1 Hp Hq) as [[_ Ek]|[Hqh Hq1]].
    - exfalso. exact (Hne Ek).
    - destruct (key_at_write_inv t alt2 q existing existing ev Hok Hp2 Hq1)
        as [[-> _]|[_ Hq0]]; [left; reflexivity | right; split; assumption]. }
  (* the probe of the key that is the new slot *)
  assert (Hi1 : exists i1, 0 <= i1 < _m t /\ i1 <= i0 + 1 /\
                           pos (_m t) existing i1 = alt2).
  { assert (Estep : alt2 = pos (_m t) existing (i0 + 1)).
    { unfold alt2. rewrite <- Ehash. apply pos_step. exact Hm. }
    destruct (Z.eq_dec (i0 + 1) (_m t)) as [Em|Em].
    - exists 0. split; [lia|]. split; [lia|].
      rewrite Estep, Em. symmetry. apply pos_wrap. exact Hm.
    - exists (i0 + 1). split; [lia|]. split; [lia|]. symmetry. exact Estep. }
  destruct Hi1 as (i1 & Hi1 & Hle & E1).
  assert (Hg' : get_position existing t' = Ok (alt2, t')).
  { rewrite <- E1.
    apply (get_position_at t' existing i1 Hok' Hi1).
    - change (_m t') with (_m t). rewrite E1. exists ev. exact Hs2.
    - change (_m t') with (_m t). intros j Hj Hkj. rewrite E1.
      destruct (Hinv _ Hkj) as [Eq|[Hqh Hq0]]; [exact Eq|exfalso].
      destruct (Z.eq_dec j i0) as [->|Hji].
      + apply Hqh. exact Ehash.
      + exact (Hpre0 j ltac:(lia) Hq0). }
  exists t'. split; [exact E|]. split; [exact Hs2|]. split; [exact Hg'|].
  eapply retrieve_found; eassumption.
Qed.
End Relocation.

(** C9. Every Occupied slot lies on the probe sequence of its own key:
    that holds in a fresh table, every operation keeps it, so it holds in
    every table a run produces.  An entry relocated by [insert_brent] moves
    one stride of its own key further, to a position that is again one of
    its [m] probes, and it remains retrievable: when it was the entry that
    lookup found for its key before the call (as it is whenever its key is
    held by one slot only), [get_position] returns the slot it was moved
    to and [retrieve] returns its value afterwards.  In general a key held
    by some slot is found by [get_position] and [retrieve]. *)
Theorem occupied_on_own_probe_sequence {V} (t : HashTable V) :
  reachable t ->
  on_probe t /\
  (forall o r t', run_op o t = Ok (r, t') -> on_probe t') /\
  (forall k i, 0 <= i < _m t ->
     (pos (_m t) k i - h2 k (_m t)) mod _m t = pos (_m t) k (i + 1) /\
     exists j, 0 <= j < _m t /\
       (pos (_m t) k i - h2 k (_m t)) mod _m t = pos (_m t) k j) /\
  (forall k v i existing ev, 0 <= i < _m t ->
     (forall j, 0 <= j < i -> brent_cont t k j) ->
     slot_at t (pos (_m t) k i) = Some (Occupied existing ev) -> existing <> k ->
     ~ free_at t ((pos (_m t) k i - h2 k (_m t)) mod _m t) ->
     free_at t ((pos (_m t) k i - h2 existing (_m t)) mod _m t) ->
     exists t',
       insert_brent k v t = Ok (pos (_m t) k i, t') /\
       slot_at t' (pos (_m t) k i) = Some (Occupied k v) /\
       slot_at t' ((pos (_m t) k i - h2 existing (_m t)) mod _m t)
       = Some (Occupied existing ev) /\
       (exists j, 0 <= j < _m t /\
          (pos (_m t) k i - h2 existing (_m t)) mod _m t = pos (_m t) existing j) /\
       (exists q v', get_position existing t' = Ok (q, t') /\
                     slot_at t' q = Some (Occupied existing v') /\
                     retrieve existing t' = Ok (v', t'))) /\
  (forall k v i existing ev, 0 <= i < _m t ->
     (forall j, 0 <= j < i -> brent_cont t k j) ->
     slot_at t (pos (_m t) k i) = Some (Occupied existing ev) -> existing <> k ->
     ~ free_at t ((pos (_m t) k i - h2 k (_m t)) mod _m t) ->
     free_at t ((pos (_m t) k i - h2 existing (_m t)) mod _m t) ->
     get_position existing t = Ok (pos (_m t) k i, t) \/ unique_key t existing ->
     retrieve existing t = Ok (ev, t) /\
     exists t',
       insert_brent k v t = Ok (pos (_m t) k i, t') /\
       slot_at t' ((pos (_m t) k i - h2 existing (_m t)) mod _m t)
       = Some (Occupied existing ev) /\
       get_position existing t'
       = Ok ((pos (_m t) k i - h2 existing (_m t)) mod _m t, t') /\
       retrieve existing t' = Ok (ev, t')) /\
  (forall p k v, slot_at t p = Some (Occupied k v) ->
     (exists q v', get_position k t = Ok (q, t) /\
                   slot_at t q = Some (Occupied k v') /\
                   retrieve k t = Ok (v', t)) /\
     ((forall q, key_at t q k -> q = p) -> retrieve k t = Ok (v, t))).
Proof.
  intros Hr. destruct (reachable_inv t Hr) as [Hok Hon].
  split; [exact Hon|]. split; [|split; [|split; [|split]]].
  - intros o r t' H.
    destruct (run_op_inv t o Hok Hon) as (r1 & t1 & E & _ & Hon1 & _).
    rewrite E in H. injection H as _ <-. exact Hon1.
  - intros k i Hi. split; [apply pos_step; lia | apply pos_step_on_probe; exact Hi].
  - intros k v i existing ev. apply relocated_entry; assumption.
  - intros k v i existing ev Hi Hpre Hs Hne Hnf1 Hf2 Hwas.
    pose proof (found_in_own_slot t existing _ ev Hok Hon Hs Hwas) as Hg.
    split; [eapply retrieve_found; eassumption|].
    apply relocated_entry_stays_found; assumption.
  - intros p k v Hs.
    destruct (get_position_finds t k p Hok Hon (ex_intro _ v Hs))
      as (q & v' & Hg & Hq & Hret).
    split; [exists q, v'; auto|].
    intros Huniq. rewrite (Huniq q (ex_intro _ v' Hq)) in Hq.
    destruct (slot_at_functional _ _ _ _ _ _ Hs Hq) as [_ ->]. exact Hret.
Qed.

(** ** Reading back what was inserted *)

Section ReadBack.
Context {V : Type}.
Implicit Types (t : HashTable V) (v : object V).

Lemma brent_cont_other t k j : brent_cont t k j -> other_at t (pos (_m t) k j) k.
Proof. intros (e & ev & Hs & Hne & _). exists e, ev. split; assumption. Qed.

(** After a successful [insert_brent] the key is found where it was put. *)
Lemma insert_brent_then_lookup t k v r t' :
  table_ok t -> insert_brent k v t = Ok (r, t') -> r <> -1 ->
  table_ok t' /\ slot_at t' r = Some (Occupied k v) /\
  get_position k t' = Ok (r, t') /\ retrieve k t' = Ok (v, t').
Proof.
  intros Hok Hins Hr.
  destruct (insert_brent_outcome t k v Hok)
    as [E|(i & Hi & Hpre &
           [[Hf E]|[(e & ev & Hs & Hne & Hf1 & E)
                   |(e & ev & Hs & Hne & Hnf1 & Hf2 & E)]])];
    rewrite E in Hins; injection Hins as <- <-; [contradiction| | |].
  - (* placed at the probe itself *)
    assert (Hm : 0 < _m t) by lia.
    pose proof (pos_range (_m t) k i Hm) as Hp.
    pose proof (table_ok_write t (pos (_m t) k i) k v Hok) as Hok'.
    pose proof (slot_at_write_eq t (pos (_m t) k i) k v Hok Hp) as Hs'.
    assert (Hg : get_position k (write t (pos (_m t) k i) k v)
                 = Ok (pos (_m t) k i, write t (pos (_m t) k i) k v)).
    { apply (get_position_at (write t (pos (_m t) k i) k v) k i Hok' Hi).
      - exists v. exact Hs'.
      - cbn [write _m]. intros j Hj Hkj.
        destruct (Z.eq_dec (pos (_m t) k j) (pos (_m t) k i)) as [Heq|Hd];
          [exact Heq|exfalso].
        destruct Hkj as [w Hw]. rewrite slot_at_write_ne in Hw by lia.
        apply (other_not_key t _ k (brent_cont_other t k j (Hpre j Hj))).
        exists w. exact Hw. }
    split; [exact Hok'|]. split; [exact Hs'|]. split; [exact Hg|].
    eapply retrieve_found; eassumption.
  - (* placed one stride ahead *)
    assert (Hm : 0 < _m t) by lia.
    assert (Hoth : forall j, 0 <= j <= i -> other_at t (pos (_m t) k j) k).
    { intros j Hj. destruct (Z.eq_dec j i) as [->|Hji].
      - exists e, ev. split; assumption.
      - apply brent_cont_other, Hpre. lia. }
    rewrite pos_step in * by exact Hm.
    assert (Hi1 : 0 <= i + 1 < _m t).
    { destruct (Z.eq_dec (i + 1) (_m t)) as [Em|Em]; [exfalso | lia].
      rewrite Em, pos_wrap in Hf1 by exact Hm.
      exact (other_not_free t _ k (Hoth 0 ltac:(lia)) Hf1). }
    pose proof (pos_range (_m t) k (i + 1) Hm) as Hp.
    pose proof (table_ok_write t (pos (_m t) k (i + 1)) k v Hok) as Hok'.
    pose proof (slot_at_write_eq t (pos (_m t) k (i + 1)) k v Hok Hp) as Hs'.
    assert (Hg : get_position k (write t (pos (_m t) k (i + 1)) k v)
                 = Ok (pos (_m t) k (i + 1), write t (pos (_m t) k (i + 1)) k v)).
    { apply (get_position_at (write t (pos (_m t) k (i + 1)) k v) k (i + 1) Hok' Hi1).
      - exists v. exact Hs'.
      - cbn [write _m]. intros j Hj Hkj.
        destruct (Z.eq_dec (pos (_m t) k j) (pos (_m t) k (i + 1))) as [Heq|Hd];
          [exact Heq|exfalso].
        destruct Hkj as [w Hw]. rewrite slot_at_write_ne in Hw by lia.
        apply (other_not_key t _ k (Hoth j ltac:(lia))).
        exists w. exact Hw. }
    split; [exact Hok'|]. split; [exact Hs'|]. split; [exact Hg|].
    eapply retrieve_found; eassumption.
  - (* the occupant was moved away *)
    assert (Hm : 0 < _m t) by lia.
    set (hash := pos (_m t) k i) in *.
    set (alt2 := (hash - h2 e (_m t)) mod _m t) in *.
    assert (Hp : 0 <= hash < _m t) by (apply pos_range; exact Hm).
    assert (Hp2 : 0 <= alt2 < _m t) by (apply Z.mod_pos_bound; exact Hm).
    pose proof (table_ok_write t alt2 e ev Hok) as Hok1.
    pose proof (table_ok_write _ hash k v Hok1) as Hok'.
    pose proof (slot_at_write_eq _ hash k v Hok1 Hp) as Hs'.
    assert (Hg : get_position k (write (write t alt2 e ev) hash k v)
                 = Ok (hash, write (write t alt2 e ev) hash k v)).
    { apply (get_position_at (write (write t alt2 e ev) hash k v) k i Hok' Hi).
      - exists v. exact Hs'.
      - cbn [write _m]. fold hash. intros j Hj Hkj.
        destruct (Z.eq_dec (pos (_m t) k j) hash) as [Heq|Hd];
          [exact Heq|exfalso].
        destruct (key_at_write_inv _ hash _ k k v Hok1 Hp Hkj) as [[Hq _]|[_ Hkj1]];
          [contradiction|].
        destruct (key_at_write_inv t alt2 _ e k ev Hok Hp2 Hkj1) as [[_ Hk]|[_ Hkj0]].
        + apply Hne. symmetry. exact Hk.
        + exact (other_not_key t _ k (brent_cont_other t k j (Hpre j Hj)) Hkj0). }
    split; [exact Hok'|]. split; [exact Hs'|]. split; [exact Hg|].
    eapply retrieve_found; eassumption.
Qed.

(** A key that was absent makes the full round trip. *)
Lemma round_trip_of_fresh_key t k v r t1 :
  table_ok t -> absent t k -> insert k v t = Ok (r, t1) -> r <> -1 ->
  retrieve k t1 = Ok (v, t1) /\
  delete k t1 = Ok (r, clear t1 r) /\
  retrieve k (clear t1 r) = Ok (PyNone, clear t1 r).
Proof.
  intros Hok Habs Hins Hr.
  destruct (insert_then_lookup t k v r t1 Hok Hins Hr)
    as (Hok1 & Hp & Hm1 & Hs1 & Hg1 & Hret1).
  split; [exact Hret1|]. split; [eapply delete_found; eassumption|].
  apply retrieve_none, get_position_absent; [apply table_ok_clear; exact Hok1|].
  intros q Hq.
  destruct (key_at_clear_inv t1 r q k Hok1 ltac:(lia) Hq) as [Hqr Hq1].
  destruct (insert_outcome t k v Hok) as [E|(i & Hi & _ & _ & E)];
    rewrite E in Hins; injection Hins as <- <-; [contradiction|].
  destruct (key_at_write_inv t (pos (_m t) k i) q k k v Hok Hp Hq1)
    as [[Hq2 _]|[_ Hq0]].
  - contradiction.
  - exact (Habs q Hq0).
Qed.
End ReadBack.

(** Where a stored [None] does read back as [None], the value [retrieve]
    also returns for a key that no slot holds: right after
    [insert(k, None)] or [insert_brent(k, None)] succeeds, and whenever
    the slot holding [k] with the value [None] is the only slot holding
    [k]. *)
Theorem stored_none_reads_as_not_found {V} (t : HashTable V) (k : Z) :
  reachable t ->
  (forall r t', insert k PyNone t = Ok (r, t') -> r <> -1 ->
     retrieve k t' = Ok (PyNone, t')) /\
  (forall r t', insert_brent k PyNone t = Ok (r, t') -> r <> -1 ->
     retrieve k t' = Ok (PyNone, t')) /\
  (forall p, slot_at t p = Some (Occupied k PyNone) ->
     (forall q, key_at t q k -> q = p) ->
     retrieve k t = Ok (PyNone, t)) /\
  (forall k', absent t k' -> retrieve k' t = Ok (PyNone, t)).
Proof.
  intros Hr. destruct (reachable_inv t Hr) as [Hok Hon]. clear Hr.
  split; [|split; [|split]].
  - intros r t' Hins Hr.
    apply (insert_then_lookup t k PyNone r t' Hok Hins Hr).
  - intros r t' Hins Hr.
    apply (insert_brent_then_lookup t k PyNone r t' Hok Hins Hr).
  - intros p Hs Huniq.
    destruct (get_position_finds t k p Hok Hon (ex_intro _ PyNone Hs))
      as (q & v' & Hg & Hq & Hret).
    rewrite (Huniq q (ex_intro _ v' Hq)) in Hq.
    destruct (slot_at_functional _ _ _ _ _ _ Hs Hq) as [_ <-]. exact Hret.
  - intros k' Habs. apply retrieve_none, get_position_absent; assumption.
Qed.

(** ** The duplicate behind a Tombstone *)

(** C1. The run [insert(0, _)], [insert(7, _)], [delete(0)],
    [insert(7, _)] on a fresh table of capacity 7 ends with two Occupied
    slots, 0 and 4, that both hold key 7: the second [insert(7, _)] stops
    at the Tombstone in slot 0 and never sees the entry in slot 4, where
    [insert]'s documentation promises [-1] for a key that is already in
    the table. *)
Theorem insert_duplicates_key_behind_tombstone :
  exists t,
    run_ops tombstone_run (HashTable_init 7)
    = Ok ([RInt 0; RInt 4; RInt 0; RInt 0], t) /\
    reachable t /\
    slot_at t 0 = Some (Occupied 7 (PyVal 3%nat)) /\
    slot_at t 4 = Some (Occupied 7 (PyVal 2%nat)) /\
    occupied_keys t = [7; 7] /\
    ~ (forall p q, key_at t p 7 -> key_at t q 7 -> p = q).
Proof.
  eexists. split; [vm_compute; reflexivity|].
  split; [exists 7, tombstone_run; eexists; vm_compute; reflexivity|].
  split; [reflexivity|]. split; [reflexivity|]. split; [reflexivity|].
  intros H. specialize (H 0 4). assert (E : 0 = 4); [|discriminate E].
  apply H; eexists; reflexivity.
Qed.

(** C2. In the same run the last [insert(7, v)] succeeds with index 0,
    [retrieve(7)] returns [v] and [delete(7)] returns 0, but the
    [retrieve(7)] after that delete returns the value of the older entry
    in slot 4 instead of [None]. *)
Theorem round_trip_broken_by_duplicate :
  exists t,
    run_ops round_trip_run (HashTable_init 7)
    = Ok ([RInt 0; RInt 4; RInt 0; RInt 0;
           RObj (PyVal 3%nat); RInt 0; RObj (PyVal 2%nat)], t) /\
    retrieve 7 t = Ok (PyVal 2%nat, t).
Proof.
  eexists. split; vm_compute; reflexivity.
Qed.

(** The entry of a key that is held twice: in the run below the entry
    [(7, 2)] in slot 4 is hidden behind the duplicate in slot 0 before
    [insert_brent(18, _)] relocates it to slot 1, and it is hidden
    afterwards; [retrieve(7)] returns 3 both times. *)
Lemma relocated_duplicate_was_hidden_before :
  exists t t',
    run_ops [OpInsert 0 (PyVal 1%nat); OpInsert 7 (PyVal 2%nat); OpDelete 0;
             OpInsert 7 (PyVal 3%nat)] (HashTable_init 7)
    = Ok ([RInt 0; RInt 4; RInt 0; RInt 0], t) /\
    retrieve 7 t = Ok (PyVal 3%nat, t) /\
    insert_brent 18 (PyVal 4%nat) t = Ok (4, t') /\
    slot_at t' 1 = Some (Occupied 7 (PyVal 2%nat)) /\
    retrieve 7 t' = Ok (PyVal 3%nat, t').
Proof.
  eexists. eexists. split; [vm_compute; reflexivity|].
  split; [reflexivity|]. split; [vm_compute; reflexivity|].
  split; reflexivity.
Qed.

(** C10. The run [insert(0, 1)], [insert(7, None)], [delete(0)],
    [insert(7, 3)] on a fresh table of capacity 7 leaves key 7 stored with
    the value [None] in slot 4, yet [retrieve(7)] returns 3, the value of
    the second entry that the last [insert] wrote into the Tombstone of
    slot 0: the stored [None] does not read back as [None], and the
    answer differs from the [None] returned for an absent key. *)
Theorem stored_none_shadowed_by_duplicate :
  exists t,
    run_ops [OpInsert 0 (PyVal 1%nat); OpInsert 7 PyNone; OpDelete 0;
             OpInsert 7 (PyVal 3%nat)] (HashTable_init 7)
    = Ok ([RInt 0; RInt 4; RInt 0; RInt 0], t) /\
    reachable t /\
    slot_at t 4 = Some (Occupied 7 PyNone) /\
    slot_at t 0 = Some (Occupied 7 (PyVal 3%nat)) /\
    retrieve 7 t = Ok (PyVal 3%nat, t) /\
    retrieve 5 t = Ok (PyNone, t).
Proof.
  eexists. split; [vm_compute; reflexivity|].
  split.
  { exists 7, [OpInsert 0 (PyVal 1%nat); OpInsert 7 PyNone; OpDelete 0;
               OpInsert 7 (PyVal 3%nat)].
    eexists. vm_compute. reflexivity. }
  split; [reflexivity|]. split; [reflexivity|]. split; reflexivity.
Qed.

(** ** The theorems at concrete tables *)

Lemma insert_probes_in_order_witness :
  table_ok collision_table /\
  insert 7 (PyVal 2%nat) collision_table
  = Ok (4, write collision_table 4 7 (PyVal 2%nat)).
Proof.
  split; [reflexivity|].
  destruct (insert_probes_in_order collision_table 7 (PyVal 2%nat) eq_refl)
    as (_ & _ & _ & _ & H & _).
  apply (H 1).
  - cbn. lia.
  - intros j Hj. assert (j = 0) as -> by lia.
    exists 0, (PyVal 1%nat). split; [reflexivity | lia].
  - exists Empty. split; reflexivity.
Defined.

Lemma insert_brent_step_witness :
  table_ok brent_table /\
  insert_brent 7 (PyVal 3%nat) brent_table
  = Ok (0, write (write brent_table 6 0 (PyVal 1%nat)) 0 7 (PyVal 3%nat)).
Proof.
  split; [reflexivity|].
  destruct (insert_brent_step brent_table 7 (PyVal 3%nat) eq_refl) as [H _].
  destruct (H 0) as (_ & _ & Hocc).
  - cbn. lia.
  - intros j Hj. lia.
  - destruct (Hocc 0 (PyVal 1%nat)) as (_ & Hmove & _).
    + reflexivity.
    + lia.
    + apply Hmove.
      * intros (s & Hs & Hf). vm_compute in Hs. injection Hs as <-. discriminate Hf.
      * exists Empty. split; reflexivity.
Defined.

Lemma get_position_scans_all_witness :
  table_ok tombstone_table /\
  get_position 7 tombstone_table = Ok (4, tombstone_table).
Proof.
  split; [reflexivity|].
  destruct (get_position_scans_all tombstone_table 7 eq_refl) as (H & _).
  apply (H 1).
  - cbn. lia.
  - intros j Hj. assert (j = 0) as -> by lia.
    intros (v & Hs). vm_compute in Hs. discriminate Hs.
  - exists (PyVal 2%nat). reflexivity.
Defined.

Lemma failed_insert_leaves_table_witness :
  table_ok collision_table /\
  insert 0 (PyVal 5%nat) collision_table = Ok (-1, collision_table) /\
  forall t', insert 0 (PyVal 5%nat) collision_table = Ok (-1, t') ->
             t' = collision_table.
Proof.
  split; [reflexivity|]. split; [reflexivity|].
  apply (failed_insert_leaves_table collision_table 0 (PyVal 5%nat) eq_refl).
Defined.

Lemma delete_absent_is_noop_witness :
  table_ok collision_table /\ absent collision_table 5 /\
  delete 5 collision_table = Ok (-1, collision_table).
Proof.
  assert (Habs : absent collision_table 5).
  { intros p (v & Hs). unfold slot_at in Hs.
    destruct (p <? 0); [discriminate Hs|].
    cbn [table collision_table] in Hs.
    destruct (Z.to_nat p) as [|[|[|[|[|[|[|n]]]]]]]; cbn in Hs; discriminate Hs. }
  split; [reflexivity|]. split; [exact Habs|].
  apply (delete_absent_is_noop collision_table 5 eq_refl Habs).
Defined.

Lemma no_call_raises_witness :
  0 <= 7 /\
  exists rs t,
    run_ops tombstone_run (HashTable_init 7) = Ok (rs, t) /\
    _m t = 7 /\
    Forall (ordinary 7) rs /\
    (7 = 0 -> Forall (fun r => is_failure r = true) rs).
Proof.
  split; [lia|]. apply (no_call_raises 7 tombstone_run). lia.
Defined.

Lemma occupied_on_own_probe_sequence_witness :
  reachable brent_table /\ on_probe brent_table /\
  retrieve 0 brent_table = Ok (PyVal 1%nat, brent_table) /\
  exists t',
    insert_brent 7 (PyVal 3%nat) brent_table = Ok (pos 7 7 0, t') /\
    slot_at t' ((pos 7 7 0 - h2 0 7) mod 7) = Some (Occupied 0 (PyVal 1%nat)) /\
    get_position 0 t' = Ok ((pos 7 7 0 - h2 0 7) mod 7, t') /\
    retrieve 0 t' = Ok (PyVal 1%nat, t').
Proof.
  assert (Hr : reachable brent_table).
  { exists 7, [OpInsert 0 (PyVal 1%nat); OpInsert 4 (PyVal 2%nat)],
      [RInt 0; RInt 4]. reflexivity. }
  split; [exact Hr|].
  destruct (occupied_on_own_probe_sequence brent_table Hr)
    as (Hon & _ & _ & _ & Hmove & _).
  split; [exact Hon|].
  apply (Hmove 7 (PyVal 3%nat) 0 0 (PyVal 1%nat)).
  - cbn. lia.
  - intros j Hj. lia.
  - reflexivity.
  - lia.
  - intros (s & Hs & Hf). vm_compute in Hs. injection Hs as <-. discriminate Hf.
  - exists Empty. split; reflexivity.
  - left. reflexivity.
Defined.

Lemma stored_none_reads_as_not_found_witness :
  reachable collision_table /\
  retrieve 7 (write collision_table 4 7 PyNone)
  = Ok (PyNone, write collision_table 4 7 PyNone).
Proof.
  assert (Hr : reachable collision_table).
  { exists 7, [OpInsert 0 (PyVal 1%nat)], [RInt 0]. reflexivity. }
  split; [exact Hr|].
  destruct (stored_none_reads_as_not_found collision_table 7 Hr) as (H & _).
  apply (H 4); [reflexivity | lia].
Defined.

(** * Further properties of the code *)

(** ** The hash functions *)

Lemma h1_range (k m : Z) : 0 < m -> 0 <= h1 k m < m.
Proof. intros Hm. unfold h1. apply Z.mod_pos_bound. exact Hm. Qed.

(** X1. [hk] and [hk2] return for every key and every capacity, the
    guarded ones 0 and 2 included: [hk] is 0 for capacity 0 and lies in
    [0, m) for [m > 0]; [hk2] is 0 for capacity 2, 1 for capacities 1 and
    3, and lies in [1, m - 2] for [m > 2]. *)
Theorem hash_functions_total_and_bounded {V} (t : HashTable V) (k m : Z) :
  exists a b,
    hk k m t = Ok (a, t) /\ hk2 k m t = Ok (b, t) /\
    (m = 0 -> a = 0) /\
    (0 < m -> a = k mod m /\ 0 <= a < m) /\
    (m = 2 -> b = 0) /\
    (m = 1 \/ m = 3 -> b = 1) /\
    (2 < m -> 1 <= b <= m - 2).
Proof.
  exists (if m =? 0 then 0 else k mod m), (h2 k m).
  split; [|split; [apply hk2_ok|]].
  - unfold hk, py_mod. destruct (Z.eqb_spec m 0); reflexivity.
  - split; [intros ->; reflexivity|]. split.
    + intros Hm. destruct (Z.eqb_spec m 0); [lia|].
      split; [reflexivity | apply Z.mod_pos_bound; exact Hm].
    + split; [intros ->; reflexivity|]. split; [|apply h2_range].
      intros [-> | ->]; unfold h2.
      * change (1 =? 2) with false. change (1 - 2) with (-1). cbv iota.
        pose proof (Z.mod_neg_bound k (-1) ltac:(lia)). lia.
      * change (3 =? 2) with false. change (3 - 2) with 1. cbv iota.
        pose proof (Z.mod_pos_bound k 1 ltac:(lia)). lia.
Qed.

(** ** Which slots a key probes *)

(** With a stride coprime to the capacity, some probe lands on any given
    slot. *)
Lemma pos_covers (m k p : Z) :
  0 < m -> Z.gcd (h2 k m) m = 1 -> 0 <= p < m ->
  exists i, 0 <= i < m /\ pos m k i = p.
Proof.
  intros Hm Hg Hp. destruct (Z.gcd_bezout _ _ _ Hg) as (u & w & Hb).
  exists (((h1 k m - p) * u) mod m). split; [apply Z.mod_pos_bound; exact Hm|].
  unfold pos. rewrite <- Zminus_mod_idemp_r, Z.mul_mod_idemp_l by lia.
  rewrite Zminus_mod_idemp_r.
  replace (h1 k m - (h1 k m - p) * u * h2 k m)
    with (p + ((h1 k m - p) * w) * m)
    by (replace ((h1 k m - p) * u * h2 k m)
          with ((h1 k m - p) * (u * h2 k m)) by ring;
        replace (u * h2 k m) with (1 - w * m) by lia; ring).
  rewrite Z_mod_plus_full. apply Z.mod_small. exact Hp.
Qed.

(** With a stride coprime to the capacity, the [m] probes are distinct. *)
Lemma pos_injective (m k i j : Z) :
  0 < m -> Z.gcd (h2 k m) m = 1 -> 0 <= i < m -> 0 <= j < m ->
  pos m k i = pos m k j -> i = j.
Proof.
  intros Hm Hg Hi Hj E. destruct (Z.gcd_bezout _ _ _ Hg) as (u & w & Hb).
  unfold pos in E. apply Z.cong_iff_ex in E. destruct E as (n & En).
  assert (Hd : j - i = (u * n + (j - i) * w) * m).
  { replace (j - i) with ((j - i) * (u * h2 k m + w * m)) at 1
      by (rewrite Hb; ring).
    replace ((j - i) * (u * h2 k m + w * m))
      with (u * ((j - i) * h2 k m) + (j - i) * w * m) by ring.
    replace ((j - i) * h2 k m) with (n * m) by lia. ring. }
  assert (Hz : u * n + (j - i) * w = 0) by nia. rewrite Hz in Hd. lia.
Qed.

(** A prime capacity above 2 makes every stride coprime to it. *)
Lemma prime_stride_coprime (m k : Z) :
  Z.prime m -> 2 < m -> Z.gcd (h2 k m) m = 1.
Proof.
  intros Hpr Hm. rewrite Z.gcd_comm.
  apply Z.coprime_prime_small; [exact Hpr|].
  pose proof (h2_range k m Hm). lia.
Qed.

(** X2. When the stride [h2(k, m)] is coprime to the capacity [m], as it
    is for every key when [m] is a prime above 2, the [m] probe positions
    of [k] are pairwise distinct and every slot of the table is one of
    them. *)
Theorem probes_visit_every_slot_once (m k : Z) :
  0 < m ->
  Z.gcd (h2 k m) m = 1 \/ (Z.prime m /\ 2 < m) ->
  (forall p, 0 <= p < m -> exists i, 0 <= i < m /\ pos m k i = p) /\
  (forall i j, 0 <= i < m -> 0 <= j < m -> pos m k i = pos m k j -> i = j).
Proof.
  intros Hm Hco.
  assert (Hg : Z.gcd (h2 k m) m = 1).
  { destruct Hco as [Hg|[Hpr H2]]; [exact Hg | apply prime_stride_coprime; assumption]. }
  split.
  - intros p Hp. apply pos_covers; assumption.
  - intros i j Hi Hj. apply pos_injective; assumption.
Qed.

Lemma probes_visit_every_slot_once_witness :
  0 < 7 /\ Z.gcd (h2 7 7) 7 = 1 /\ exists i, 0 <= i < 7 /\ pos 7 7 i = 5.
Proof.
  split; [lia|]. split; [reflexivity|].
  apply (probes_visit_every_slot_once 7 7 ltac:(lia) (or_introl eq_refl)). lia.
Defined.

(** ** Why an insertion fails *)

Section FailureCauses.
Context {V : Type}.
Implicit Types (t : HashTable V) (v : object V).

(** [insert] returns [-1] because it met the key, or because every probe
    holds another key. *)
Lemma insert_failure_cause t k v t' :
  table_ok t -> insert k v t = Ok (-1, t') ->
  (exists i, 0 <= i < _m t /\
     (forall j, 0 <= j < i -> other_at t (pos (_m t) k j) k) /\
     key_at t (pos (_m t) k i) k) \/
  (forall j, 0 <= j < _m t -> other_at t (pos (_m t) k j) k).
Proof.
  intros Hok H. destruct (Z_le_gt_dec (_m t) 0) as [Hm|Hm].
  { right. intros j Hj. lia. }
  destruct (first_index
              (fun j => other_at t (pos (_m t) k j) k)
              (fun j => free_at t (pos (_m t) k j) \/ key_at t (pos (_m t) k j) k)
              (_m t) ltac:(lia)) as [Hall|(i & Hi & Hpre & [Hf|Hk])].
  - intros j Hj.
    destruct (slot_cases t (pos (_m t) k j) k Hok (pos_range (_m t) k j ltac:(lia)))
      as [Hf|[Hk|Ho]]; [right; left | right; right | left]; assumption.
  - right. exact Hall.
  - exfalso. rewrite (insert_reaches t k v i Hok) in H by (lia || assumption).
    rewrite (range_cons i) in H by lia.
    rewrite insert_loop_free in H by (assumption || lia).
    injection H as Hp _. pose proof (pos_range (_m t) k i ltac:(lia)). lia.
  - left. exists i. split; [lia|]. split; assumption.
Qed.

(** [insert_brent] returns [-1] because it met the key, or because every
    iteration went on to the next. *)
Lemma insert_brent_failure_cause t k v t' :
  table_ok t -> insert_brent k v t = Ok (-1, t') ->
  (exists i, 0 <= i < _m t /\
     (forall j, 0 <= j < i -> brent_cont t k j) /\
     key_at t (pos (_m t) k i) k) \/
  (forall j, 0 <= j < _m t -> brent_cont t k j).
Proof.
  intros Hok H. destruct (Z_le_gt_dec (_m t) 0) as [Hm|Hm].
  { right. intros j Hj. lia. }
  assert (Hm' : 0 < _m t) by lia.
  destruct (first_index (brent_cont t k) _ (_m t) ltac:(lia)
              (fun j _ => brent_cases t k j Hok Hm'))
    as [Hall|(i & Hi & Hpre & Hq)].
  - right. exact Hall.
  - rewrite (insert_brent_reaches t k v i Hok) in H by (lia || assumption).
    rewrite (range_cons i) in H by lia.
    pose proof (pos_range (_m t) k i Hm') as Hp.
    destruct Hq as [Hf|[Hk|(existing & ev & Hs & Hne & [Hf1|[Hnf1 Hf2]])]].
    + exfalso. rewrite insert_brent_loop_free in H by assumption.
      injection H as Hr _. lia.
    + left. exists i. split; [lia|]. split; assumption.
    + exfalso.
      rewrite (insert_brent_loop_skip_ahead t k v i _ existing ev) in H by assumption.
      injection H as Hr _.
      pose proof (Z.mod_pos_bound (pos (_m t) k i - h2 k (_m t)) (_m t) Hm'). lia.
    + exfalso.
      rewrite (insert_brent_loop_relocate t k v i _ existing ev) in H by assumption.
      injection H as Hr _. lia.
Qed.

Lemma free_at_bound t p : table_ok t -> free_at t p -> 0 <= p < _m t.
Proof. intros Hok (s & Hs & _). eapply slot_at_bound; eassumption. Qed.

(** A successful [insert_brent] returns an index of the table. *)
Lemma insert_brent_index t k v r t' :
  table_ok t -> insert_brent k v t = Ok (r, t') -> r = -1 \/ 0 <= r < _m t.
Proof.
  intros Hok H.
  destruct (insert_brent_outcome t k v Hok)
    as [E|(i & Hi & _ &
           [[_ E]|[(e & ev & _ & _ & _ & E)|(e & ev & _ & _ & _ & _ & E)]])];
    rewrite E in H; injection H as <- _.
  - left. reflexivity.
  - right. apply pos_range. lia.
  - right. apply Z.mod_pos_bound. lia.
  - right. apply pos_range. lia.
Qed.

Lemma insert_brent_inv_total t k v :
  table_ok t -> exists r t', insert_brent k v t = Ok (r, t').
Proof.
  intros Hok.
  destruct (insert_brent_outcome t k v Hok)
    as [E|(i & _ & _ &
           [[_ E]|[(e & ev & _ & _ & _ & E)|(e & ev & _ & _ & _ & _ & E)]])];
    eexists _, _; exact E.
Qed.

Lemma absent_key_inserted t k v :
  table_ok t -> Z.gcd (h2 k (_m t)) (_m t) = 1 -> absent t k ->
  (exists p, free_at t p) ->
  exists r, 0 <= r < _m t /\ free_at t r /\ insert k v t = Ok (r, write t r k v).
Proof.
  intros Hok Hg Habs (p & Hf). pose proof (free_at_bound t p Hok Hf) as Hp.
  destruct (insert_outcome t k v Hok) as [E|(i & Hi & _ & Hfi & E)].
  - exfalso. destruct (insert_failure_cause t k v t Hok E)
      as [(i & _ & _ & Hk)|Hall].
    + exact (Habs _ Hk).
    + destruct (pos_covers (_m t) k p ltac:(lia) Hg Hp) as (i & Hi & Ei).
      apply (other_not_free t p k); [rewrite <- Ei; apply Hall; exact Hi | exact Hf].
  - exists (pos (_m t) k i). split; [apply pos_range; lia|]. split; assumption.
Qed.

Lemma absent_key_inserted_brent t k v :
  table_ok t -> Z.gcd (h2 k (_m t)) (_m t) = 1 -> absent t k ->
  (exists p, free_at t p) ->
  exists r t', 0 <= r < _m t /\ insert_brent k v t = Ok (r, t').
Proof.
  intros Hok Hg Habs (p & Hf). pose proof (free_at_bound t p Hok Hf) as Hp.
  destruct (insert_brent_inv_total t k v Hok) as (r & t' & E).
  exists r, t'. split; [|exact E].
  destruct (insert_brent_index t k v r t' Hok E) as [->|Hr]; [exfalso | exact Hr].
  destruct (insert_brent_failure_cause t k v t' Hok E)
    as [(i & _ & _ & Hk)|Hall].
  - exact (Habs _ Hk).
  - destruct (pos_covers (_m t) k p ltac:(lia) Hg Hp) as (i & Hi & Ei).
    apply (other_not_free t p k); [|exact Hf].
    rewrite <- Ei. apply brent_cont_other, Hall. exact Hi.
Qed.
End FailureCauses.

(** Absence read off the list of keys. *)
Lemma absent_of_keys {V} (t : HashTable V) (k : Z) :
  forallb (fun k' => negb (k' =? k)) (occupied_keys t) = true -> absent t k.
Proof.
  intros Hall p (v & Hs).
  destruct (occupied_cell t p k v Hs) as (e & Hc & Hk & _).
  assert (Hin : k ∈ occupied_keys t).
  { unfold occupied_keys. apply list_elem_of_omap.
    exists (Some e). split; [|exact Hk].
    apply list_elem_of_lookup. exists (Z.to_nat p). exact Hc. }
  apply list_elem_of_In in Hin.
  rewrite forallb_forall in Hall. specialize (Hall k Hin).
  rewrite Z.eqb_refl in Hall. discriminate Hall.
Qed.

(** X3. When the stride of [k] is coprime to the capacity, [k] is in no
    slot and some slot is free, [insert(k, v)] succeeds: it writes the
    entry into a slot that was free and returns its index; and
    [insert_brent(k, v)] succeeds too.  On such a table an insertion of a
    new key fails only when the table is full. *)
Theorem new_key_inserted_while_a_slot_is_free {V}
  (t : HashTable V) (k : Z) (v : object V) :
  table_ok t -> Z.gcd (h2 k (_m t)) (_m t) = 1 -> absent t k ->
  (exists p, free_at t p) ->
  (exists r, 0 <= r < _m t /\ free_at t r /\
             insert k v t = Ok (r, write t r k v)) /\
  (exists r t', 0 <= r < _m t /\ insert_brent k v t = Ok (r, t')).
Proof.
  intros Hok Hg Habs Hfree. split.
  - apply absent_key_inserted; assumption.
  - apply absent_key_inserted_brent; assumption.
Qed.

Lemma new_key_inserted_while_a_slot_is_free_witness :
  table_ok collision_table /\
  Z.gcd (h2 7 (_m collision_table)) (_m collision_table) = 1 /\
  absent collision_table 7 /\
  (exists p, free_at collision_table p) /\
  exists r, 0 <= r < 7 /\ free_at collision_table r /\
            insert 7 (PyVal 2%nat) collision_table
            = Ok (r, write collision_table r 7 (PyVal 2%nat)).
Proof.
  assert (Habs : absent collision_table 7) by (apply absent_of_keys; reflexivity).
  assert (Hfree : exists p, free_at collision_table p).
  { exists 1, Empty. split; reflexivity. }
  split; [reflexivity|]. split; [reflexivity|]. split; [exact Habs|].
  split; [exact Hfree|].
  apply (new_key_inserted_while_a_slot_is_free
           collision_table 7 (PyVal 2%nat) eq_refl eq_refl Habs Hfree).
Defined.

(** X4. On a table with no free slot, [insert] and [insert_brent] return
    [-1] for every key and value and leave the table as it was. *)
Theorem full_table_rejects_every_insert {V}
  (t : HashTable V) (k : Z) (v : object V) :
  table_ok t -> full t ->
  insert k v t = Ok (-1, t) /\ insert_brent k v t = Ok (-1, t).
Proof.
  intros Hok Hfull. split.
  - destruct (insert_outcome t k v Hok) as [E|(i & Hi & _ & Hf & _)]; [exact E|].
    exfalso. exact (Hfull _ (pos_range (_m t) k i ltac:(lia)) Hf).
  - destruct (insert_brent_outcome t k v Hok)
      as [E|(i & Hi & _ &
             [[Hf _]|[(e & ev & _ & _ & Hf & _)|(e & ev & _ & _ & _ & Hf & _)]])];
      [exact E| | |]; exfalso.
    + exact (Hfull _ (pos_range (_m t) k i ltac:(lia)) Hf).
    + exact (Hfull _ (Z.mod_pos_bound _ (_m t) ltac:(lia)) Hf).
    + exact (Hfull _ (Z.mod_pos_bound _ (_m t) ltac:(lia)) Hf).
Qed.

Lemma full_table_rejects_every_insert_witness :
  table_ok full_table /\ full full_table /\
  insert 5 (PyVal 3%nat) full_table = Ok (-1, full_table) /\
  insert_brent 5 (PyVal 3%nat) full_table = Ok (-1, full_table).
Proof.
  assert (Hfull : full full_table).
  { intros p Hp (s & Hs & Hf). cbn in Hp.
    assert (p = 0 \/ p = 1) as [-> | ->] by lia;
      vm_compute in Hs; injection Hs as <-; discriminate Hf. }
  split; [reflexivity|]. split; [exact Hfull|].
  apply (full_table_rejects_every_insert full_table 5 (PyVal 3%nat) eq_refl Hfull).
Defined.

(** With capacity 2 the stride is 0 and every probe is the home slot. *)
Lemma pos_capacity_two (k i : Z) : pos 2 k i = k mod 2.
Proof.
  unfold pos, h1, h2. change (2 =? 2) with true. cbv iota.
  rewrite Z.mul_0_r, Z.sub_0_r. apply Z.mod_mod. lia.
Qed.

Lemma step_capacity_two (k k' i : Z) : (pos 2 k i - h2 k' 2) mod 2 = k mod 2.
Proof.
  rewrite pos_capacity_two. unfold h2. change (2 =? 2) with true. cbv iota.
  rewrite Z.sub_0_r. apply Z.mod_mod. lia.
Qed.

(** X5. With capacity 2, [hk2] is 0, so every probe of a key is its home
    slot [k mod 2]: when that slot holds another key, [insert] and
    [insert_brent] return [-1] and change nothing, whether or not the
    other slot is free. *)
Theorem capacity_two_probes_home_only {V}
  (t : HashTable V) (k : Z) (v : object V) :
  table_ok t -> _m t = 2 -> other_at t (k mod 2) k ->
  (forall i, pos (_m t) k i = k mod 2) /\
  insert k v t = Ok (-1, t) /\ insert_brent k v t = Ok (-1, t).
Proof.
  intros Hok Hm Ho. split; [intros i; rewrite Hm; apply pos_capacity_two|].
  split.
  - destruct (insert_outcome t k v Hok) as [E|(i & _ & _ & Hf & _)]; [exact E|].
    exfalso. rewrite Hm, pos_capacity_two in Hf.
    exact (other_not_free t _ k Ho Hf).
  - destruct (insert_brent_outcome t k v Hok)
      as [E|(i & Hi & _ &
             [[Hf _]|[(e & ev & _ & _ & Hf & _)|(e & ev & _ & _ & _ & Hf & _)]])];
      [exact E| | |]; exfalso; rewrite Hm in Hf.
    + rewrite pos_capacity_two in Hf. exact (other_not_free t _ k Ho Hf).
    + rewrite step_capacity_two in Hf. exact (other_not_free t _ k Ho Hf).
    + rewrite step_capacity_two in Hf. exact (other_not_free t _ k Ho Hf).
Qed.

Lemma capacity_two_probes_home_only_witness :
  table_ok pair_table /\ _m pair_table = 2 /\ other_at pair_table (2 mod 2) 2 /\
  free_at pair_table 1 /\
  insert 2 (PyVal 2%nat) pair_table = Ok (-1, pair_table) /\
  insert_brent 2 (PyVal 2%nat) pair_table = Ok (-1, pair_table).
Proof.
  assert (Ho : other_at pair_table (2 mod 2) 2).
  { exists 0, (PyVal 1%nat). split; [reflexivity | lia]. }
  split; [reflexivity|]. split; [reflexivity|]. split; [exact Ho|].
  split; [exists Empty; split; reflexivity|].
  apply (capacity_two_probes_home_only pair_table 2 (PyVal 2%nat) eq_refl eq_refl Ho).
Defined.

(** ** Brent's variation against plain insertion *)

Section BrentVersusPlain.
Context {V : Type}.
Implicit Types (t : HashTable V) (v : object V).

(** Iterations that all went on stop short of a free probe. *)
Lemma cont_before_free t k i ib :
  (forall j, 0 <= j < ib -> brent_cont t k j) ->
  0 <= i -> free_at t (pos (_m t) k i) -> ib <= i.
Proof.
  intros Hpre Hi Hf. destruct (Z_le_gt_dec ib i) as [Hle|Hgt]; [exact Hle|].
  exfalso. apply (other_not_free t _ k (brent_cont_other t k i (Hpre i ltac:(lia)))).
  exact Hf.
Qed.

Lemma brent_no_later t k v i :
  table_ok t -> 0 <= i < _m t ->
  (forall j, 0 <= j < i -> other_at t (pos (_m t) k j) k) ->
  free_at t (pos (_m t) k i) ->
  exists i' t', 0 <= i' <= i /\
    insert_brent k v t = Ok (pos (_m t) k i', t').
Proof.
  intros Hok Hi Hpre Hf. assert (Hm : 0 < _m t) by lia.
  assert (Hnokey : forall j, 0 <= j <= i -> ~ key_at t (pos (_m t) k j) k).
  { intros j Hj. destruct (Z.eq_dec j i) as [->|Hne].
    - apply free_not_key. exact Hf.
    - apply other_not_key. apply Hpre. lia. }
  destruct (insert_brent_outcome t k v Hok)
    as [E|(ib & Hib & Hcont &
           [[Hfb E]|[(e & ev & Hs & Hne & Hf1 & E)
                    |(e & ev & Hs & Hne & Hnf1 & Hf2 & E)]])].
  - exfalso.
    destruct (insert_brent_failure_cause t k v t Hok E)
      as [(ib & Hib & Hcont & Hk)|Hall].
    + pose proof (cont_before_free t k i ib Hcont ltac:(lia) Hf) as Hle.
      exact (Hnokey ib ltac:(lia) Hk).
    + apply (other_not_free t _ k (brent_cont_other t k i (Hall i Hi))). exact Hf.
  - pose proof (cont_before_free t k i ib Hcont ltac:(lia) Hf) as Hle.
    exists ib. eexists. split; [lia | exact E].
  - pose proof (cont_before_free t k i ib Hcont ltac:(lia) Hf) as Hle.
    assert (Hlt : ib < i).
    { destruct (Z.eq_dec ib i) as [->|Hd]; [exfalso | lia].
      eapply free_occupied_ne; [exact Hf | exact Hs | reflexivity]. }
    rewrite pos_step in E by exact Hm.
    exists (ib + 1). eexists. split; [lia | exact E].
  - pose proof (cont_before_free t k i ib Hcont ltac:(lia) Hf) as Hle.
    exists ib. eexists. split; [lia | exact E].
Qed.
End BrentVersusPlain.

(** X6. Whenever [insert(k, v)] succeeds, at the probe [i] that is the
    first free one, [insert_brent(k, v)] on the same table succeeds as
    well, and the index it returns is a probe of [k] at or before the
    [i]-th: the new key never ends up further along its probe sequence
    than with plain insertion. *)
Theorem brent_places_no_later_than_insert {V}
  (t : HashTable V) (k : Z) (v : object V) (i : Z) :
  table_ok t -> 0 <= i < _m t ->
  (forall j, 0 <= j < i -> other_at t (pos (_m t) k j) k) ->
  free_at t (pos (_m t) k i) ->
  insert k v t = Ok (pos (_m t) k i, write t (pos (_m t) k i) k v) /\
  exists i' t', 0 <= i' <= i /\
    insert_brent k v t = Ok (pos (_m t) k i', t').
Proof.
  intros Hok Hi Hpre Hf. split.
  - rewrite (insert_reaches t k v i Hok) by (lia || assumption).
    rewrite (range_cons i) by lia. apply insert_loop_free; [assumption | lia | assumption].
  - apply brent_no_later; assumption.
Qed.

Lemma brent_places_no_later_than_insert_witness :
  table_ok brent_table /\
  insert 7 (PyVal 3%nat) brent_table = Ok (1, write brent_table 1 7 (PyVal 3%nat)) /\
  exists i' t', 0 <= i' <= 2 /\
    insert_brent 7 (PyVal 3%nat) brent_table = Ok (pos 7 7 i', t').
Proof.
  split; [reflexivity|].
  apply (brent_places_no_later_than_insert brent_table 7 (PyVal 3%nat) 2 eq_refl).
  - cbn. lia.
  - intros j Hj. assert (j = 0 \/ j = 1) as [-> | ->] by lia.
    + exists 0, (PyVal 1%nat). split; [reflexivity | lia].
    + exists 4, (PyVal 2%nat). split; [reflexivity | lia].
  - exists Empty. split; reflexivity.
Defined.

(** ** What the table holds after a call *)

Section Contents.
Context {V : Type}.
Implicit Types (t : HashTable V) (v : object V).

(** The shape of a successful [insert]. *)
Lemma insert_success_shape t k v r t' :
  table_ok t -> insert k v t = Ok (r, t') -> r <> -1 ->
  0 <= r < _m t /\ free_at t r /\ t' = write t r k v.
Proof.
  intros Hok H Hr.
  destruct (insert_outcome t k v Hok) as [E|(i & Hi & _ & Hf & E)];
    rewrite E in H; injection H as <- <-; [contradiction|].
  split; [apply pos_range; lia|]. split; [exact Hf | reflexivity].
Qed.

(** The shape of a successful [insert_brent]: one write into a free slot,
    or the occupant of [r] moved into a free slot and [r] overwritten. *)
Lemma insert_brent_success_shape t k v r t' :
  table_ok t -> insert_brent k v t = Ok (r, t') -> r <> -1 ->
  0 <= r < _m t /\
  ((free_at t r /\ t' = write t r k v) \/
   (exists alt2 e ev,
      slot_at t r = Some (Occupied e ev) /\ e <> k /\ free_at t alt2 /\
      alt2 = (r - h2 e (_m t)) mod _m t /\
      t' = write (write t alt2 e ev) r k v)).
Proof.
  intros Hok H Hr.
  destruct (insert_brent_outcome t k v Hok)
    as [E|(i & Hi & _ &
           [[Hf E]|[(e & ev & _ & _ & Hf & E)|(e & ev & Hs & Hne & _ & Hf & E)]])];
    rewrite E in H; injection H as <- <-; [contradiction| | |].
  - split; [apply pos_range; lia|]. left. split; [exact Hf | reflexivity].
  - split; [apply Z.mod_pos_bound; lia|]. left. split; [exact Hf | reflexivity].
  - split; [apply pos_range; lia|]. right.
    exists ((pos (_m t) k i - h2 e (_m t)) mod _m t), e, ev. auto 6.
Qed.

(** The shape of a [delete]. *)
Lemma delete_shape t k r t' :
  table_ok t -> delete k t = Ok (r, t') ->
  (r = -1 /\ t' = t /\ forall j, 0 <= j < _m t -> ~ key_at t (pos (_m t) k j) k) \/
  (exists i v0, 0 <= i < _m t /\ r = pos (_m t) k i /\
     (forall j, 0 <= j < i -> ~ key_at t (pos (_m t) k j) k) /\
     slot_at t r = Some (Occupied k v0) /\ t' = clear t r).
Proof.
  intros Hok H.
  destruct (get_position_outcome t k Hok)
    as [[Hg Hnone]|(i & Hi & Hpre & [v0 Hs] & Hg)].
  - rewrite (delete_none t k Hg) in H. injection H as <- <-. left. auto.
  - rewrite (delete_found t k _ v0 Hok Hg Hs) in H. injection H as <- <-.
    right. exists i, v0. auto 6.
Qed.

Lemma holds_write_free t p k v k' v' :
  table_ok t -> free_at t p ->
  holds (write t p k v) k' v' <-> holds t k' v' \/ (k' = k /\ v' = v).
Proof.
  intros Hok Hf. pose proof (free_at_bound t p Hok Hf) as Hp. split.
  - intros (q & Hq). destruct (Z.eq_dec q p) as [->|Hne].
    + rewrite slot_at_write_eq in Hq by assumption.
      injection Hq as -> ->. right. split; reflexivity.
    + rewrite slot_at_write_ne in Hq by lia. left. exists q. exact Hq.
  - intros [(q & Hq)|[-> ->]].
    + exists q. rewrite slot_at_write_ne; [exact Hq | lia |].
      intros ->. eapply free_occupied_ne; [exact Hf | exact Hq | reflexivity].
    + exists p. apply slot_at_write_eq; assumption.
Qed.

Lemma holds_relocate t r alt2 k v e ev k' v' :
  table_ok t -> 0 <= r < _m t ->
  slot_at t r = Some (Occupied e ev) -> free_at t alt2 ->
  holds (write (write t alt2 e ev) r k v) k' v'
  <-> holds t k' v' \/ (k' = k /\ v' = v).
Proof.
  intros Hok Hr Hs Hf. pose proof (free_at_bound t alt2 Hok Hf) as Hp2.
  assert (Hd : alt2 <> r) by (eapply free_occupied_ne; eassumption).
  pose proof (table_ok_write t alt2 e ev Hok) as Hok1.
  split.
  - intros (q & Hq). destruct (Z.eq_dec q r) as [->|Hne].
    + rewrite slot_at_write_eq in Hq by assumption.
      injection Hq as -> ->. right. split; reflexivity.
    + rewrite slot_at_write_ne in Hq by lia. left.
      destruct (Z.eq_dec q alt2) as [->|Hne2].
      * rewrite slot_at_write_eq in Hq by assumption.
        injection Hq as -> ->. exists r. exact Hs.
      * rewrite slot_at_write_ne in Hq by lia. exists q. exact Hq.
  - intros [(q & Hq)|[-> ->]].
    + destruct (Z.eq_dec q r) as [->|Hne].
      * rewrite Hs in Hq. injection Hq as -> ->.
        exists alt2. rewrite slot_at_write_ne by lia.
        apply slot_at_write_eq; assumption.
      * exists q. rewrite !slot_at_write_ne; [exact Hq | lia | | lia | exact Hne].
        intros ->. eapply free_occupied_ne; [exact Hf | exact Hq | reflexivity].
    + exists r. apply slot_at_write_eq; assumption.
Qed.

Lemma contents_after_insert t k v r t' k' v' :
  table_ok t -> insert k v t = Ok (r, t') -> r <> -1 ->
  holds t' k' v' <-> holds t k' v' \/ (k' = k /\ v' = v).
Proof.
  intros Hok H Hr.
  destruct (insert_success_shape t k v r t' Hok H Hr) as (_ & Hf & ->).
  apply holds_write_free; assumption.
Qed.

Lemma contents_after_insert_brent t k v r t' k' v' :
  table_ok t -> insert_brent k v t = Ok (r, t') -> r <> -1 ->
  holds t' k' v' <-> holds t k' v' \/ (k' = k /\ v' = v).
Proof.
  intros Hok H Hr.
  destruct (insert_brent_success_shape t k v r t' Hok H Hr)
    as (Hp & [[Hf ->]|(alt2 & e & ev & Hs & _ & Hf & _ & ->)]).
  - apply holds_write_free; assumption.
  - apply holds_relocate; assumption.
Qed.
End Contents.

(** X7. A successful [insert(k, v)] or [insert_brent(k, v)] adds the entry
    [(k, v)] and nothing else: afterwards the table holds exactly the
    entries it held before and [(k, v)].  In particular the entry that
    [insert_brent] relocates is neither lost nor changed. *)
Theorem successful_insert_adds_one_entry {V}
  (t : HashTable V) (k : Z) (v : object V) (r : Z) (t' : HashTable V) :
  table_ok t ->
  insert k v t = Ok (r, t') \/ insert_brent k v t = Ok (r, t') ->
  r <> -1 ->
  forall k' v', holds t' k' v' <-> holds t k' v' \/ (k' = k /\ v' = v).
Proof.
  intros Hok [H|H] Hr k' v'.
  - eapply contents_after_insert; eassumption.
  - eapply contents_after_insert_brent; eassumption.
Qed.

Lemma successful_insert_adds_one_entry_witness :
  table_ok brent_table /\
  insert_brent 7 (PyVal 3%nat) brent_table
  = Ok (0, write (write brent_table 6 0 (PyVal 1%nat)) 0 7 (PyVal 3%nat)) /\
  holds (write (write brent_table 6 0 (PyVal 1%nat)) 0 7 (PyVal 3%nat))
        0 (PyVal 1%nat).
Proof.
  split; [reflexivity|]. split; [reflexivity|].
  apply (successful_insert_adds_one_entry brent_table 7 (PyVal 3%nat) 0 _
           eq_refl (or_intror eq_refl) ltac:(lia) 0 (PyVal 1%nat)).
  left. exists 0. reflexivity.
Defined.

(** ** The effect of [delete] and the answers of [retrieve] *)

(** X8. A [delete(k)] that returns an index [r] found key [k] in slot [r],
    the first probe of [k] that holds it; afterwards slot [r] is a
    Tombstone, free for reuse, every other slot is as before, and every
    entry under another key is still held.  A [delete(k)] that returns
    [-1] changed nothing. *)
Theorem delete_clears_one_slot {V}
  (t : HashTable V) (k : Z) (r : Z) (t' : HashTable V) :
  table_ok t -> delete k t = Ok (r, t') ->
  (r = -1 /\ t' = t) \/
  (0 <= r < _m t /\ key_at t r k /\
   (exists i, 0 <= i < _m t /\ r = pos (_m t) k i /\
      forall j, 0 <= j < i -> ~ key_at t (pos (_m t) k j) k) /\
   slot_at t' r = Some Tombstone /\ free_at t' r /\
   (forall q, q <> r -> slot_at t' q = slot_at t q) /\
   (forall k' v', holds t' k' v' -> holds t k' v') /\
   (forall k' v', k' <> k -> holds t k' v' -> holds t' k' v')).
Proof.
  intros Hok H.
  destruct (delete_shape t k r t' Hok H)
    as [(-> & -> & _)|(i & v0 & Hi & Er & Hpre & Hs & ->)].
  - left. split; reflexivity.
  - right. assert (Hr : 0 <= r < _m t) by (rewrite Er; apply pos_range; lia).
    pose proof (slot_at_clear_eq t r Hok Hr) as Hc.
    split; [exact Hr|]. split; [exists v0; exact Hs|].
    split; [exists i; auto|]. split; [exact Hc|].
    split; [exists Tombstone; split; [exact Hc | reflexivity]|].
    split; [intros q Hq; apply slot_at_clear_ne; lia|].
    split.
    + intros k' v' (q & Hq). exists q.
      destruct (Z.eq_dec q r) as [->|Hne].
      * rewrite Hc in Hq. discriminate Hq.
      * rewrite slot_at_clear_ne in Hq by lia. exact Hq.
    + intros k' v' Hne (q & Hq). exists q. rewrite slot_at_clear_ne; [exact Hq | lia |].
      intros ->. rewrite Hs in Hq. injection Hq as Hk _. apply Hne. symmetry. exact Hk.
Qed.

Lemma delete_clears_one_slot_witness :
  table_ok tombstone_table /\
  delete 7 tombstone_table = Ok (4, clear tombstone_table 4) /\
  ((4 = -1 /\ clear tombstone_table 4 = tombstone_table) \/
   (0 <= 4 < _m tombstone_table /\ key_at tombstone_table 4 7 /\
    (exists i, 0 <= i < _m tombstone_table /\ 4 = pos (_m tombstone_table) 7 i /\
       forall j, 0 <= j < i ->
                 ~ key_at tombstone_table (pos (_m tombstone_table) 7 j) 7) /\
    slot_at (clear tombstone_table 4) 4 = Some Tombstone /\
    free_at (clear tombstone_table 4) 4 /\
    (forall q, q <> 4 -> slot_at (clear tombstone_table 4) q = slot_at tombstone_table q) /\
    (forall k' v', holds (clear tombstone_table 4) k' v' -> holds tombstone_table k' v') /\
    (forall k' v', k' <> 7 -> holds tombstone_table k' v' ->
                   holds (clear tombstone_table 4) k' v'))).
Proof.
  split; [reflexivity|]. split; [reflexivity|].
  apply (delete_clears_one_slot tombstone_table 7 4 _ eq_refl eq_refl).
Defined.

Section Answers.
Context {V : Type}.
Implicit Types (t : HashTable V) (v : object V).

(** What [retrieve] returns and where it comes from. *)
Lemma retrieve_shape t k x t' :
  table_ok t -> retrieve k t = Ok (x, t') ->
  t' = t /\
  ((x = PyNone /\ forall j, 0 <= j < _m t -> ~ key_at t (pos (_m t) k j) k) \/
   (exists i, 0 <= i < _m t /\
      (forall j, 0 <= j < i -> ~ key_at t (pos (_m t) k j) k) /\
      slot_at t (pos (_m t) k i) = Some (Occupied k x))).
Proof.
  intros Hok H.
  destruct (get_position_outcome t k Hok)
    as [[Hg Hnone]|(i & Hi & Hpre & [v0 Hs] & Hg)].
  - rewrite (retrieve_none t k Hg) in H. injection H as <- <-.
    split; [reflexivity|]. left. split; [reflexivity | exact Hnone].
  - rewrite (retrieve_found t k _ v0 Hok Hg Hs) in H. injection H as <- <-.
    split; [reflexivity|]. right. exists i. auto.
Qed.

(** Two tables with the same capacity and the same entries under [k]
    answer [retrieve(k)] alike. *)
Lemma retrieve_ext t t' k :
  table_ok t -> table_ok t' -> _m t' = _m t ->
  (forall q w, slot_at t' q = Some (Occupied k w) <-> slot_at t q = Some (Occupied k w)) ->
  exists x, retrieve k t = Ok (x, t) /\ retrieve k t' = Ok (x, t').
Proof.
  intros Hok Hok' Hm Hagree.
  assert (Hkey : forall q, key_at t' q k <-> key_at t q k).
  { intros q. split; intros (w & Hw); exists w; apply Hagree; exact Hw. }
  destruct (get_position_outcome t k Hok)
    as [[Hg Hnone]|(i & Hi & Hpre & [v0 Hs] & Hg)].
  - exists PyNone. split; [apply retrieve_none; exact Hg|].
    destruct (get_position_outcome t' k Hok')
      as [[Hg' _]|(i' & Hi' & _ & Hk' & _)].
    + apply retrieve_none. exact Hg'.
    + exfalso. rewrite Hm in *. apply (Hnone i' Hi'). apply Hkey. exact Hk'.
  - exists v0. split; [eapply retrieve_found; eassumption|].
    apply (retrieve_found t' k (pos (_m t) k i) v0 Hok'); [|apply Hagree; exact Hs].
    rewrite <- Hm. apply get_position_at; rewrite ?Hm; try assumption.
    + apply Hkey. exists v0. exact Hs.
    + intros j Hj Hkj. exfalso. apply (Hpre j Hj). apply Hkey. exact Hkj.
Qed.
End Answers.

(** X9. [retrieve(k)] never changes the table, and a value it returns
    other than [None] is the value of an entry under key [k]: the one in
    the first probe position of [k] that holds [k].  It returns [None]
    when no probe position holds [k] (or when that entry's value is
    [None]). *)
Theorem retrieve_returns_a_stored_value {V}
  (t : HashTable V) (k : Z) (x : object V) (t' : HashTable V) :
  table_ok t -> retrieve k t = Ok (x, t') ->
  t' = t /\
  (x <> PyNone -> holds t k x) /\
  ((x = PyNone /\ forall j, 0 <= j < _m t -> ~ key_at t (pos (_m t) k j) k) \/
   (exists i, 0 <= i < _m t /\
      (forall j, 0 <= j < i -> ~ key_at t (pos (_m t) k j) k) /\
      slot_at t (pos (_m t) k i) = Some (Occupied k x))).
Proof.
  intros Hok H. destruct (retrieve_shape t k x t' Hok H) as (-> & Hx).
  split; [reflexivity|]. split; [|exact Hx].
  intros Hne. destruct Hx as [[-> _]|(i & _ & _ & Hs)]; [contradiction|].
  exists (pos (_m t) k i). exact Hs.
Qed.

Lemma retrieve_returns_a_stored_value_witness :
  table_ok tombstone_table /\
  retrieve 7 tombstone_table = Ok (PyVal 2%nat, tombstone_table) /\
  holds tombstone_table 7 (PyVal 2%nat).
Proof.
  split; [reflexivity|]. split; [reflexivity|].
  apply (retrieve_returns_a_stored_value tombstone_table 7 (PyVal 2%nat) _
           eq_refl eq_refl).
  discriminate.
Defined.

(** ** Keys other than the one a call is about *)

Section Frame.
Context {V : Type}.
Implicit Types (t : HashTable V) (v : object V).

Lemma agree_write_free t p k v k' :
  table_ok t -> free_at t p -> k' <> k ->
  forall q w, slot_at (write t p k v) q = Some (Occupied k' w)
              <-> slot_at t q = Some (Occupied k' w).
Proof.
  intros Hok Hf Hne q w. pose proof (free_at_bound t p Hok Hf) as Hp.
  destruct (Z.eq_dec q p) as [->|Hd].
  - rewrite slot_at_write_eq by assumption. split.
    + intros [= E _]. exfalso. apply Hne. symmetry. exact E.
    + intros Hs. exfalso. eapply free_occupied_ne; [exact Hf | exact Hs | reflexivity].
  - rewrite slot_at_write_ne by lia. reflexivity.
Qed.

Lemma agree_overwrite t p k v e ev k' :
  table_ok t -> slot_at t p = Some (Occupied e ev) -> k' <> k -> k' <> e ->
  forall q w, slot_at (write t p k v) q = Some (Occupied k' w)
              <-> slot_at t q = Some (Occupied k' w).
Proof.
  intros Hok Hs Hne Hne2 q w. pose proof (slot_at_bound t p _ Hok Hs) as Hp.
  destruct (Z.eq_dec q p) as [->|Hd].
  - rewrite slot_at_write_eq by assumption. rewrite Hs. split.
    + intros [= E _]. exfalso. apply Hne. symmetry. exact E.
    + intros [= E _]. exfalso. apply Hne2. symmetry. exact E.
  - rewrite slot_at_write_ne by lia. reflexivity.
Qed.

Lemma agree_clear t r k v0 k' :
  table_ok t -> slot_at t r = Some (Occupied k v0) -> k' <> k ->
  forall q w, slot_at (clear t r) q = Some (Occupied k' w)
              <-> slot_at t q = Some (Occupied k' w).
Proof.
  intros Hok Hs Hne q w. pose proof (slot_at_bound t r _ Hok Hs) as Hr.
  destruct (Z.eq_dec q r) as [->|Hd].
  - rewrite slot_at_clear_eq by assumption. rewrite Hs. split.
    + discriminate.
    + intros [= E _]. exfalso. apply Hne. symmetry. exact E.
  - rewrite slot_at_clear_ne by lia. reflexivity.
Qed.

Lemma frame_insert t k v r t' k' :
  table_ok t -> k' <> k -> insert k v t = Ok (r, t') ->
  exists x, retrieve k' t = Ok (x, t) /\ retrieve k' t' = Ok (x, t').
Proof.
  intros Hok Hne H. destruct (Z.eq_dec r (-1)) as [->|Hr].
  - rewrite (insert_failed_same t k v t' Hok H).
    destruct (retrieve_inv t k' Hok) as (x & E). exists x. split; exact E.
  - destruct (insert_success_shape t k v r t' Hok H Hr) as (_ & Hf & ->).
    apply retrieve_ext; [exact Hok | apply table_ok_write; exact Hok | reflexivity |].
    apply agree_write_free; assumption.
Qed.

Lemma frame_delete t k r t' k' :
  table_ok t -> k' <> k -> delete k t = Ok (r, t') ->
  exists x, retrieve k' t = Ok (x, t) /\ retrieve k' t' = Ok (x, t').
Proof.
  intros Hok Hne H.
  destruct (delete_shape t k r t' Hok H)
    as [(_ & -> & _)|(i & v0 & _ & _ & _ & Hs & ->)].
  - destruct (retrieve_inv t k' Hok) as (x & E). exists x. split; exact E.
  - apply retrieve_ext; [exact Hok | apply table_ok_clear; exact Hok | reflexivity |].
    eapply agree_clear; eassumption.
Qed.

(** The one slot of a key that is held once decides [retrieve]. *)
Lemma retrieve_unique t k p v :
  table_ok t -> on_probe t -> unique_key t k ->
  slot_at t p = Some (Occupied k v) -> retrieve k t = Ok (v, t).
Proof.
  intros Hok Hon Hu Hs.
  destruct (get_position_finds t k p Hok Hon (ex_intro _ v Hs))
    as (q & v' & _ & Hq & Hret).
  rewrite (Hu q p (ex_intro _ v' Hq) (ex_intro _ v Hs)) in Hq.
  destruct (slot_at_functional _ _ _ _ _ _ Hs Hq) as [_ ->]. exact Hret.
Qed.

Lemma unique_write_free t p k v k0 :
  table_ok t -> free_at t p -> unique_key t k0 -> k0 <> k \/ absent t k ->
  unique_key (write t p k v) k0.
Proof.
  intros Hok Hf Hu Hside a b Ha Hb.
  pose proof (free_at_bound t p Hok Hf) as Hp.
  destruct (key_at_write_inv t p a k k0 v Hok Hp Ha) as [[-> Ek]|[Hna Ha0]];
    destruct (key_at_write_inv t p b k k0 v Hok Hp Hb) as [[-> Ek']|[Hnb Hb0]].
  - reflexivity.
  - exfalso. subst k0. destruct Hside as [Hn|Habs]; [congruence | exact (Habs b Hb0)].
  - exfalso. subst k0. destruct Hside as [Hn|Habs]; [congruence | exact (Habs a Ha0)].
  - apply Hu; assumption.
Qed.

Lemma unique_clear t r k0 :
  table_ok t -> 0 <= r < _m t -> unique_key t k0 -> unique_key (clear t r) k0.
Proof.
  intros Hok Hr Hu a b Ha Hb.
  destruct (key_at_clear_inv t r a k0 Hok Hr Ha) as [_ Ha0].
  destruct (key_at_clear_inv t r b k0 Hok Hr Hb) as [_ Hb0].
  apply Hu; assumption.
Qed.

Lemma key_at_relocate_inv t r alt2 k v e ev a k0 :
  table_ok t -> 0 <= r < _m t -> 0 <= alt2 < _m t ->
  key_at (write (write t alt2 e ev) r k v) a k0 ->
  (a = r /\ k0 = k) \/ (a <> r /\ a = alt2 /\ k0 = e) \/
  (a <> r /\ a <> alt2 /\ key_at t a k0).
Proof.
  intros Hok Hr Hp2 Ha.
  destruct (key_at_write_inv _ r a k k0 v (table_ok_write t alt2 e ev Hok) Hr Ha)
    as [[-> ->]|[Hna Ha1]]; [left; split; reflexivity|].
  destruct (key_at_write_inv t alt2 a e k0 ev Hok Hp2 Ha1) as [[-> ->]|[Hna2 Ha0]].
  - right. left. auto.
  - right. right. auto.
Qed.

Lemma unique_relocate t r alt2 k v e ev k0 :
  table_ok t -> slot_at t r = Some (Occupied e ev) -> e <> k -> free_at t alt2 ->
  unique_key t k0 -> k0 <> k \/ absent t k ->
  unique_key (write (write t alt2 e ev) r k v) k0.
Proof.
  intros Hok Hs Hne Hf Hu Hside a b Ha Hb.
  pose proof (slot_at_bound t r _ Hok Hs) as Hr.
  pose proof (free_at_bound t alt2 Hok Hf) as Hp2.
  assert (Hnew : k0 = k -> forall c, ~ key_at t c k0).
  { intros -> c Hc. destruct Hside as [Hn|Habs]; [congruence | exact (Habs c Hc)]. }
  assert (Hold : k0 = e -> forall c, key_at t c k0 -> c = r).
  { intros -> c Hc. apply Hu; [exact Hc | exists ev; exact Hs]. }
  destruct (key_at_relocate_inv t r alt2 k v e ev a k0 Hok Hr Hp2 Ha)
    as [[-> Ea]|[(Hna & -> & Ea)|(Hna & Hna2 & Ha0)]];
    destruct (key_at_relocate_inv t r alt2 k v e ev b k0 Hok Hr Hp2 Hb)
      as [[-> Eb]|[(Hnb & -> & Eb)|(Hnb & Hnb2 & Hb0)]];
    try reflexivity; try congruence.
  - exfalso. exact (Hnew Ea b Hb0).
  - exfalso. apply Hnb. exact (Hold Ea b Hb0).
  - exfalso. exact (Hnew Eb a Ha0).
  - exfalso. apply Hna. exact (Hold Eb a Ha0).
  - apply Hu; assumption.
Qed.

(** Uniqueness of one key through a call of [insert_brent]. *)
Lemma unique_insert_brent t k v r t' k0 :
  table_ok t -> unique_key t k0 -> k0 <> k \/ absent t k ->
  insert_brent k v t = Ok (r, t') -> unique_key t' k0.
Proof.
  intros Hok Hu Hside H. destruct (Z.eq_dec r (-1)) as [->|Hr].
  - rewrite (insert_brent_failed_same t k v t' Hok H). exact Hu.
  - destruct (insert_brent_success_shape t k v r t' Hok H Hr)
      as (Hp & [[Hf ->]|(alt2 & e & ev & Hs & Hne & Hf & _ & ->)]).
    + apply unique_write_free; assumption.
    + eapply unique_relocate; eassumption.
Qed.

Lemma unique_insert t k v r t' k0 :
  table_ok t -> unique_key t k0 -> k0 <> k \/ absent t k ->
  insert k v t = Ok (r, t') -> unique_key t' k0.
Proof.
  intros Hok Hu Hside H. destruct (Z.eq_dec r (-1)) as [->|Hr].
  - rewrite (insert_failed_same t k v t' Hok H). exact Hu.
  - destruct (insert_success_shape t k v r t' Hok H Hr) as (_ & Hf & ->).
    apply unique_write_free; assumption.
Qed.

Lemma unique_delete t k r t' k0 :
  table_ok t -> unique_key t k0 -> delete k t = Ok (r, t') -> unique_key t' k0.
Proof.
  intros Hok Hu H.
  destruct (delete_shape t k r t' Hok H)
    as [(_ & -> & _)|(i & v0 & Hi & -> & _ & _ & ->)]; [exact Hu|].
  apply unique_clear; [exact Hok | apply pos_range; lia | exact Hu].
Qed.

Lemma frame_insert_brent t k v r t' k' :
  table_ok t -> on_probe t -> unique_key t k' -> k' <> k ->
  insert_brent k v t = Ok (r, t') ->
  exists x, retrieve k' t = Ok (x, t) /\ retrieve k' t' = Ok (x, t').
Proof.
  intros Hok Hon Hu Hne H.
  destruct (insert_brent_inv t k v Hok Hon) as (r1 & t1 & E1 & Hok' & Hon' & _).
  rewrite H in E1. injection E1 as <- <-.
  pose proof (unique_insert_brent t k v r t' k' Hok Hu (or_introl Hne) H) as Hu'.
  destruct (Z.eq_dec r (-1)) as [->|Hr].
  - rewrite (insert_brent_failed_same t k v t' Hok H).
    destruct (retrieve_inv t k' Hok) as (x & E). exists x. split; exact E.
  - destruct (insert_brent_success_shape t k v r t' Hok H Hr)
      as (Hp & [[Hf ->]|(alt2 & e & ev & Hs & Hnek & Hf & _ & ->)]).
    + apply retrieve_ext; [exact Hok | exact Hok' | reflexivity |].
      apply agree_write_free; assumption.
    + pose proof (free_at_bound t alt2 Hok Hf) as Hp2.
      assert (Hd : alt2 <> r) by (eapply free_occupied_ne; eassumption).
      destruct (Z.eq_dec k' e) as [->|Hne2].
      * exists ev. split; [eapply retrieve_unique; eassumption|].
        apply (retrieve_unique _ e alt2 ev Hok' Hon' Hu').
        rewrite slot_at_write_ne by lia. apply slot_at_write_eq; assumption.
      * apply retrieve_ext; [exact Hok | exact Hok' | reflexivity |].
        intros q w.
        rewrite (agree_overwrite (write t alt2 e ev) r k v e ev k');
          [apply agree_write_free; assumption
          | apply table_ok_write; exact Hok
          | rewrite slot_at_write_ne by lia; exact Hs
          | exact Hne | exact Hne2].
Qed.
End Frame.

(** Keys listed without repetition sit in distinct cells. *)
Lemma omap_nodup_index {A B} (f : A -> option B) (l : list A) :
  NoDup (omap f l) ->
  forall i j a b y, l !! i = Some a -> l !! j = Some b ->
                    f a = Some y -> f b = Some y -> i = j.
Proof.
  induction l as [|x l IH]; intros Hnd i j a b y Hi Hj Ha Hb.
  - destruct i; discriminate Hi.
  - assert (Hin : forall n c, l !! n = Some c -> f c = Some y -> y ∈ omap f l).
    { intros n c Hn Hc. apply list_elem_of_omap. exists c. split; [|exact Hc].
      apply list_elem_of_lookup. exists n. exact Hn. }
    assert (Htail : NoDup (omap f l)).
    { cbn [omap list_omap] in Hnd. destruct (f x); [|exact Hnd].
      apply NoDup_cons in Hnd. apply Hnd. }
    destruct i as [|i], j as [|j]; cbn in Hi, Hj.
    + reflexivity.
    + exfalso. injection Hi as ->. cbn [omap list_omap] in Hnd. rewrite Ha in Hnd.
      apply NoDup_cons in Hnd. apply (proj1 Hnd). eapply Hin; eassumption.
    + exfalso. injection Hj as ->. cbn [omap list_omap] in Hnd. rewrite Hb in Hnd.
      apply NoDup_cons in Hnd. apply (proj1 Hnd). eapply Hin; eassumption.
    + f_equal. eapply IH; eassumption.
Qed.

(** Uniqueness read off the list of keys. *)
Lemma no_dup_of_keys {V} (t : HashTable V) : NoDup (occupied_keys t) -> no_dup t.
Proof.
  intros Hnd k p q (v & Hp) (w & Hq).
  destruct (slot_at_inv t p _ Hp) as (Hp0 & _).
  destruct (slot_at_inv t q _ Hq) as (Hq0 & _).
  destruct (occupied_cell t p k v Hp) as (e & Hc & Hk & _).
  destruct (occupied_cell t q k w Hq) as (e' & Hc' & Hk' & _).
  assert (E : Z.to_nat p = Z.to_nat q).
  { eapply (omap_nodup_index _ (table t) Hnd); [exact Hc | exact Hc' | exact Hk | exact Hk']. }
  lia.
Qed.

(** X10. A call about key [k] does not change what [retrieve] answers for
    another key [k']: after [insert(k, v)] or [delete(k)], whatever they
    return, [retrieve(k')] returns what it returned before; after
    [insert_brent(k, v)] too, when [k'] is held by at most one slot and
    every entry lies on its probe sequence (the entry of [k'] may be the
    one that is relocated). *)
Theorem other_keys_read_the_same {V}
  (t : HashTable V) (k : Z) (v : object V) (r : Z) (t' : HashTable V) (k' : Z) :
  table_ok t -> k' <> k ->
  insert k v t = Ok (r, t') \/ delete k t = Ok (r, t') \/
  (insert_brent k v t = Ok (r, t') /\ on_probe t /\ unique_key t k') ->
  exists x, retrieve k' t = Ok (x, t) /\ retrieve k' t' = Ok (x, t').
Proof.
  intros Hok Hne [H|[H|(H & Hon & Hu)]].
  - eapply frame_insert; eassumption.
  - eapply frame_delete; eassumption.
  - eapply frame_insert_brent; eassumption.
Qed.

Lemma other_keys_read_the_same_witness :
  table_ok brent_table /\ 0 <> 7 /\
  insert_brent 7 (PyVal 3%nat) brent_table
  = Ok (0, write (write brent_table 6 0 (PyVal 1%nat)) 0 7 (PyVal 3%nat)) /\
  on_probe brent_table /\ unique_key brent_table 0 /\
  exists x, retrieve 0 brent_table = Ok (x, brent_table) /\
            retrieve 0 (write (write brent_table 6 0 (PyVal 1%nat)) 0 7 (PyVal 3%nat))
            = Ok (x, write (write brent_table 6 0 (PyVal 1%nat)) 0 7 (PyVal 3%nat)).
Proof.
  assert (Hon : on_probe brent_table).
  { apply reachable_inv.
    exists 7, [OpInsert 0 (PyVal 1%nat); OpInsert 4 (PyVal 2%nat)], [RInt 0; RInt 4].
    reflexivity. }
  assert (Hu : unique_key brent_table 0).
  { apply no_dup_of_keys.
    apply (bool_decide_unpack (NoDup (occupied_keys brent_table))). exact I. }
  split; [reflexivity|]. split; [lia|]. split; [reflexivity|].
  split; [exact Hon|]. split; [exact Hu|].
  apply (other_keys_read_the_same brent_table 7 (PyVal 3%nat) 0 _ 0 eq_refl ltac:(lia)).
  right. right. split; [reflexivity|]. split; assumption.
Defined.

(** X11. Uniqueness of keys is kept by [delete], by an insertion that
    returns [-1], and by [insert] and [insert_brent] of a key that no slot
    holds: if no key is held by two slots before such a call, none is
    after it. *)
Theorem keys_stay_unique {V}
  (t : HashTable V) (k : Z) (v : object V) (r : Z) (t' : HashTable V) :
  table_ok t -> no_dup t ->
  delete k t = Ok (r, t') \/
  ((insert k v t = Ok (r, t') \/ insert_brent k v t = Ok (r, t')) /\
   (absent t k \/ r = -1)) ->
  no_dup t'.
Proof.
  intros Hok Hnd [H|[[H|H] [Habs| ->]]] k0.
  - eapply unique_delete; [exact Hok | apply Hnd | exact H].
  - eapply unique_insert; [exact Hok | apply Hnd | right; exact Habs | exact H].
  - rewrite (insert_failed_same t k v t' Hok H). apply Hnd.
  - eapply unique_insert_brent; [exact Hok | apply Hnd | right; exact Habs | exact H].
  - rewrite (insert_brent_failed_same t k v t' Hok H). apply Hnd.
Qed.

Lemma keys_stay_unique_witness :
  table_ok brent_table /\ no_dup brent_table /\ absent brent_table 7 /\
  no_dup (write (write brent_table 6 0 (PyVal 1%nat)) 0 7 (PyVal 3%nat)).
Proof.
  assert (Hnd : no_dup brent_table).
  { apply no_dup_of_keys.
    apply (bool_decide_unpack (NoDup (occupied_keys brent_table))). exact I. }
  assert (Habs : absent brent_table 7) by (apply absent_of_keys; reflexivity).
  split; [reflexivity|]. split; [exact Hnd|]. split; [exact Habs|].
  apply (keys_stay_unique brent_table 7 (PyVal 3%nat) 0 _ eq_refl Hnd).
  right. split; [right; reflexivity | left; exact Habs].
Defined.

(** ** Round trips *)

Section RoundTrips.
Context {V : Type}.
Implicit Types (t : HashTable V) (v : object V).

Lemma absent_unique t k : absent t k -> unique_key t k.
Proof. intros Habs p q Hp _. exfalso. exact (Habs p Hp). Qed.

(** Once the only slot of a key is cleared, the key is absent. *)
Lemma absent_after_clear t k r :
  table_ok t -> 0 <= r < _m t -> unique_key t k -> key_at t r k ->
  absent (clear t r) k.
Proof.
  intros Hok Hr Hu Hk q Hq.
  destruct (key_at_clear_inv t r q k Hok Hr Hq) as [Hne Hq0].
  apply Hne. apply Hu; assumption.
Qed.

Lemma round_trip_from_lookup t1 k v r :
  table_ok t1 -> unique_key t1 k ->
  slot_at t1 r = Some (Occupied k v) ->
  get_position k t1 = Ok (r, t1) -> retrieve k t1 = Ok (v, t1) ->
  retrieve k t1 = Ok (v, t1) /\
  delete k t1 = Ok (r, clear t1 r) /\
  retrieve k (clear t1 r) = Ok (PyNone, clear t1 r) /\
  delete k (clear t1 r) = Ok (-1, clear t1 r).
Proof.
  intros Hok Hu Hs Hg Hret.
  pose proof (slot_at_bound t1 r _ Hok Hs) as Hr.
  assert (Hg2 : get_position k (clear t1 r) = Ok (-1, clear t1 r)).
  { apply get_position_absent; [apply table_ok_clear; exact Hok|].
    apply absent_after_clear; try assumption. exists v. exact Hs. }
  split; [exact Hret|]. split; [eapply delete_found; eassumption|].
  split; [apply retrieve_none | apply delete_none]; exact Hg2.
Qed.
End RoundTrips.

(** X12. For a key [k] that no slot holds, a successful [insert(k, v)] or
    [insert_brent(k, v)] returning [r] is followed by the full round trip:
    [retrieve(k)] returns [v], [delete(k)] returns [r], and after that
    [retrieve(k)] returns [None] and a second [delete(k)] returns [-1]. *)
Theorem new_key_round_trip {V}
  (t : HashTable V) (k : Z) (v : object V) (r : Z) (t1 : HashTable V) :
  table_ok t -> absent t k ->
  insert k v t = Ok (r, t1) \/ insert_brent k v t = Ok (r, t1) ->
  r <> -1 ->
  retrieve k t1 = Ok (v, t1) /\
  delete k t1 = Ok (r, clear t1 r) /\
  retrieve k (clear t1 r) = Ok (PyNone, clear t1 r) /\
  delete k (clear t1 r) = Ok (-1, clear t1 r).
Proof.
  intros Hok Habs [H|H] Hr.
  - destruct (insert_then_lookup t k v r t1 Hok H Hr)
      as (Hok1 & _ & _ & Hs & Hg & Hret).
    apply round_trip_from_lookup; try assumption.
    eapply unique_insert; [exact Hok | apply absent_unique; exact Habs
                          | right; exact Habs | exact H].
  - destruct (insert_brent_then_lookup t k v r t1 Hok H Hr)
      as (Hok1 & Hs & Hg & Hret).
    apply round_trip_from_lookup; try assumption.
    eapply unique_insert_brent; [exact Hok | apply absent_unique; exact Habs
                                | right; exact Habs | exact H].
Qed.

Lemma new_key_round_trip_witness :
  table_ok brent_table /\ absent brent_table 7 /\
  insert_brent 7 (PyVal 3%nat) brent_table
  = Ok (0, write (write brent_table 6 0 (PyVal 1%nat)) 0 7 (PyVal 3%nat)) /\
  retrieve 7 (write (write brent_table 6 0 (PyVal 1%nat)) 0 7 (PyVal 3%nat))
  = Ok (PyVal 3%nat, write (write brent_table 6 0 (PyVal 1%nat)) 0 7 (PyVal 3%nat)).
Proof.
  assert (Habs : absent brent_table 7) by (apply absent_of_keys; reflexivity).
  split; [reflexivity|]. split; [exact Habs|]. split; [reflexivity|].
  apply (new_key_round_trip brent_table 7 (PyVal 3%nat) 0 _ eq_refl Habs
           (or_intror eq_refl) ltac:(lia)).
Defined.

(** ** Reuse of a Tombstone *)

Section Reuse.
Context {V : Type}.
Implicit Types (t : HashTable V) (v : object V).

Lemma insert_after_clear t k v i r0 :
  table_ok t -> 0 <= i < _m t -> 0 <= r0 < _m t ->
  (forall j, 0 <= j < i -> other_at t (pos (_m t) k j) k) ->
  free_at t (pos (_m t) k i) ->
  exists i', 0 <= i' <= i /\
    insert k v (clear t r0)
    = Ok (pos (_m t) k i', write (clear t r0) (pos (_m t) k i') k v).
Proof.
  intros Hok Hi Hr0 Hpre Hf. assert (Hm : 0 < _m t) by lia.
  pose proof (table_ok_clear t r0 Hok) as Hok1.
  set (t1 := clear t r0) in *.
  assert (Hm1 : _m t1 = _m t) by reflexivity.
  assert (Hfree1 : forall p, free_at t p -> free_at t1 p).
  { intros p (s & Hs & Hfs). destruct (Z.eq_dec p r0) as [->|Hne].
    - exists Tombstone. split; [apply slot_at_clear_eq; assumption | reflexivity].
    - exists s. split; [|exact Hfs]. unfold t1. rewrite slot_at_clear_ne by lia. exact Hs. }
  destruct (first_index
              (fun j => other_at t1 (pos (_m t) k j) k)
              (fun j => free_at t1 (pos (_m t) k j) \/ key_at t1 (pos (_m t) k j) k)
              (i + 1) ltac:(lia)) as [Hall|(i' & Hi' & Hpre' & Hq)].
  - intros j Hj.
    destruct (slot_cases t1 (pos (_m t) k j) k Hok1 (pos_range (_m t) k j Hm))
      as [Hf1|[Hk1|Ho1]]; [right; left | right; right | left]; assumption.
  - exfalso. apply (other_not_free t1 _ k (Hall i ltac:(lia))). apply Hfree1. exact Hf.
  - destruct Hq as [Hf1|Hk1].
    + exists i'. split; [lia|].
      rewrite (insert_reaches t1 k v i' Hok1) by (rewrite ?Hm1; lia || assumption).
      rewrite Hm1, (range_cons i') by lia.
      rewrite <- Hm1. apply insert_loop_free; rewrite ?Hm1; assumption.
    + exfalso. destruct (key_at_clear_inv t r0 _ k Hok Hr0 Hk1) as [_ Hk0].
      destruct (Z.eq_dec i' i) as [->|Hne].
      * exact (free_not_key t _ k Hf Hk0).
      * exact (other_not_key t _ k (Hpre i' ltac:(lia)) Hk0).
Qed.
End Reuse.

(** X13. A [delete] never pushes a later insertion further along: if
    [insert(k, v)] would succeed at its probe [i], then after any
    [delete(k0)] it still succeeds, at a probe [i' <= i], the slot freed by
    the delete being reused when it comes first. *)
Theorem delete_never_delays_insert {V}
  (t : HashTable V) (k : Z) (v : object V) (i k0 r0 : Z) (t1 : HashTable V) :
  table_ok t -> 0 <= i < _m t ->
  (forall j, 0 <= j < i -> other_at t (pos (_m t) k j) k) ->
  free_at t (pos (_m t) k i) ->
  delete k0 t = Ok (r0, t1) ->
  exists i', 0 <= i' <= i /\
    insert k v t1 = Ok (pos (_m t) k i', write t1 (pos (_m t) k i') k v).
Proof.
  intros Hok Hi Hpre Hf Hd.
  destruct (delete_shape t k0 r0 t1 Hok Hd)
    as [(_ & -> & _)|(i0 & v0 & Hi0 & -> & _ & _ & ->)].
  - exists i. split; [lia|].
    rewrite (insert_reaches t k v i Hok) by (lia || assumption).
    rewrite (range_cons i) by lia. apply insert_loop_free; [assumption | lia | assumption].
  - apply insert_after_clear; try assumption. apply pos_range. lia.
Qed.

Lemma delete_never_delays_insert_witness :
  table_ok collision_table /\
  insert 7 (PyVal 2%nat) collision_table
  = Ok (4, write collision_table 4 7 (PyVal 2%nat)) /\
  delete 0 collision_table = Ok (0, clear collision_table 0) /\
  exists i', 0 <= i' <= 1 /\
    insert 7 (PyVal 2%nat) (clear collision_table 0)
    = Ok (pos 7 7 i', write (clear collision_table 0) (pos 7 7 i') 7 (PyVal 2%nat)).
Proof.
  split; [reflexivity|]. split; [reflexivity|]. split; [reflexivity|].
  apply (delete_never_delays_insert collision_table 7 (PyVal 2%nat) 1 0 0 _ eq_refl).
  - cbn. lia.
  - intros j Hj. assert (j = 0) as -> by lia.
    exists 0, (PyVal 1%nat). split; [reflexivity | lia].
  - exists Empty. split; reflexivity.
  - reflexivity.
Defined.

(** ** The slot methods on any index *)

Section Subscripts.
Context {V : Type}.
Implicit Types (t : HashTable V) (v : object V) (cell : option (HashEntry V)).

Lemma py_index_out (len : nat) (i : Z) :
  i < - Z.of_nat len \/ Z.of_nat len <= i -> py_index len i = None.
Proof.
  intros H. unfold py_index.
  destruct (Z.leb_spec 0 i), (Z.ltb_spec i (Z.of_nat len)),
    (Z.leb_spec (- Z.of_nat len) i), (Z.ltb_spec i 0); cbn; try reflexivity; lia.
Qed.

Lemma py_index_wraps (len : nat) (i : Z) :
  - Z.of_nat len <= i < Z.of_nat len ->
  exists n, py_index len i = Some n /\ (n < len)%nat /\
            Z.of_nat n = (if i <? 0 then Z.of_nat len + i else i).
Proof.
  intros H. unfold py_index.
  destruct (Z.leb_spec 0 i), (Z.ltb_spec i (Z.of_nat len)),
    (Z.leb_spec (- Z.of_nat len) i), (Z.ltb_spec i 0); cbn; try lia;
    eexists; (split; [reflexivity|]); lia.
Qed.

Lemma table_getitem_out t i :
  py_index (length (table t)) i = None -> table_getitem i t = Raise IndexError.
Proof. intros H. unfold table_getitem. rewrite H. reflexivity. Qed.

Lemma table_getitem_at t i n cell :
  py_index (length (table t)) i = Some n -> table t !! n = Some cell ->
  table_getitem i t = Ok (cell, t).
Proof. intros H Hc. unfold table_getitem. rewrite H, Hc. reflexivity. Qed.

Lemma is_free_at t i n cell :
  py_index (length (table t)) i = Some n -> table t !! n = Some cell ->
  is_empty i t = Ok (match cell with None => true | Some _ => false end, t) /\
  is_free i t = Ok (free_state (state_of cell), t).
Proof.
  intros H Hc. pose proof (table_getitem_at t i n cell H Hc) as Hg.
  unfold is_free, is_empty, bind. rewrite Hg.
  destruct cell as [e|]; cbn [ret]; [|split; reflexivity].
  rewrite Hg. unfold attr_key, ret, state_of.
  split; [reflexivity|]. destruct (key e); reflexivity.
Qed.

Lemma set_key_value_at t i n cell k v :
  py_index (length (table t)) i = Some n -> table t !! n = Some cell ->
  set_key_value i (Some k) v t
  = Ok (tt, mkTable (<[n := Some (mkEntry (Some k) v)]> (table t)) (_m t)).
Proof.
  intros H Hc. pose proof (table_getitem_at t i n cell H Hc) as Hg.
  unfold set_key_value, is_empty, bind. rewrite Hg.
  destruct cell as [e|]; cbn [ret].
  - unfold table_set_key, bind. rewrite Hg. unfold table_setitem at 1. rewrite H.
    set (t1 := mkTable (<[n := Some (mkEntry (Some k) (value e))]> (table t)) (_m t)).
    assert (H1 : py_index (length (table t1)) i = Some n)
      by (cbn; rewrite length_insert; exact H).
    assert (Hc1 : table t1 !! n = Some (Some (mkEntry (Some k) (value e)))).
    { cbn. apply list_lookup_insert_eq. apply lookup_lt_Some in Hc. exact Hc. }
    unfold table_set_value, bind.
    rewrite (table_getitem_at t1 i n _ H1 Hc1).
    unfold table_setitem. rewrite H1. cbn. rewrite list_insert_insert_eq. reflexivity.
  - unfold table_setitem. rewrite H. reflexivity.
Qed.
End Subscripts.

(** X14. [is_empty], [is_free] and [set_key_value] take any index that
    Python's list subscript takes: outside [-len, len) all three raise
    [IndexError]; inside, a negative index counts from the end, no call
    raises, [is_empty] is true for a cell that is [None], [is_free] for a
    cell that is [None] or has a cleared key, and [set_key_value]
    overwrites the cell whatever it held (it does not check that the cell
    is free), leaving it not free and the capacity unchanged. *)
Theorem slot_methods_on_any_index {V} (t : HashTable V) (index : Z) :
  (index < - Z.of_nat (length (table t)) \/ Z.of_nat (length (table t)) <= index ->
   is_empty index t = Raise IndexError /\
   is_free index t = Raise IndexError /\
   forall k v, set_key_value index k v t = Raise IndexError) /\
  (- Z.of_nat (length (table t)) <= index < Z.of_nat (length (table t)) ->
   exists n cell,
     Z.of_nat n = (if index <? 0 then Z.of_nat (length (table t)) + index else index) /\
     table t !! n = Some cell /\
     is_empty index t = Ok (match cell with None => true | Some _ => false end, t) /\
     is_free index t = Ok (free_state (state_of cell), t) /\
     forall k v, exists t',
       set_key_value index (Some k) v t = Ok (tt, t') /\
       table t' = <[n := Some (mkEntry (Some k) v)]> (table t) /\
       is_free index t' = Ok (false, t') /\
       _m t' = _m t /\ length (table t') = length (table t)).
Proof.
  split.
  - intros Hout. pose proof (py_index_out _ _ Hout) as Hidx.
    pose proof (table_getitem_out t index Hidx) as Hg.
    split; [|split].
    + unfold is_empty, bind. rewrite Hg. reflexivity.
    + unfold is_free, is_empty, bind. rewrite Hg. reflexivity.
    + intros k v. unfold set_key_value, is_empty, bind. rewrite Hg. reflexivity.
  - intros Hin. destruct (py_index_wraps _ _ Hin) as (n & Hidx & Hn & En).
    destruct (lookup_lt_is_Some_2 (table t) n Hn) as (cell & Hc).
    exists n, cell. split; [exact En|]. split; [exact Hc|].
    destruct (is_free_at t index n cell Hidx Hc) as (He & Hf).
    split; [exact He|]. split; [exact Hf|].
    intros k v. eexists. split; [eapply set_key_value_at; eassumption|].
    split; [reflexivity|]. split; [|split; [reflexivity | cbn; apply length_insert]].
    refine (proj2 (is_free_at _ index n (Some (mkEntry (Some k) v)) _ _)).
    + cbn. rewrite length_insert. exact Hidx.
    + cbn. apply list_lookup_insert_eq. exact Hn.
Qed.

Lemma slot_methods_on_any_index_witness :
  is_free 7 collision_table = Raise IndexError /\
  is_free (-7) collision_table = Ok (false, collision_table) /\
  is_free (-1) collision_table = Ok (true, collision_table).
Proof.
  destruct (slot_methods_on_any_index collision_table 7) as (Hout & _).
  split; [apply Hout; cbn; lia|]. split; reflexivity.
Defined.

(** ** Runs of [insert] and [retrieve] alone *)

Section PlainRuns.
Context {V : Type}.
Implicit Types (t : HashTable V) (v : object V).

Lemma write_keeps_occupied t r k v q :
  table_ok t -> 0 <= r < _m t -> 0 <= q < _m t ->
  ~ free_at t q -> ~ free_at (write t r k v) q.
Proof.
  intros Hok Hr Hq Hnf (s & Hs & Hfs). destruct (Z.eq_dec q r) as [->|Hne].
  - rewrite slot_at_write_eq in Hs by assumption. injection Hs as <-. discriminate Hfs.
  - rewrite slot_at_write_ne in Hs by lia. apply Hnf. exists s. split; assumption.
Qed.

(** In a packed table [insert] sees every key that is present. *)
Lemma packed_insert_present t k v :
  table_ok t -> packed t -> ~ absent t k -> insert k v t = Ok (-1, t).
Proof.
  intros Hok Hpk Hpres.
  destruct (insert_outcome t k v Hok) as [E|(i & Hi & Hpre & Hf & _)]; [exact E|].
  exfalso. apply Hpres. intros q Hq.
  destruct (Hpk q k Hq) as (i0 & Hi0 & -> & Hnf).
  destruct (Z_lt_le_dec i i0) as [Hlt|Hle].
  - exact (Hnf i ltac:(lia) Hf).
  - destruct (Z.eq_dec i0 i) as [->|Hne].
    + exact (free_not_key t _ k Hf Hq).
    + exact (other_not_key t _ k (Hpre i0 ltac:(lia)) Hq).
Qed.

Lemma packed_insert t k v r t' :
  table_ok t -> packed t -> no_dup t -> insert k v t = Ok (r, t') ->
  table_ok t' /\ packed t' /\ no_dup t'.
Proof.
  intros Hok Hpk Hnd H.
  destruct (insert_outcome t k v Hok) as [E|(i & Hi & Hpre & Hf & E)];
    rewrite E in H; injection H as <- <-; [auto|].
  assert (Hm : 0 < _m t) by lia.
  pose proof (pos_range (_m t) k i Hm) as Hp.
  assert (Habs : absent t k).
  { intros q Hq. destruct (Hpk q k Hq) as (i0 & Hi0 & -> & Hnf).
    destruct (Z_lt_le_dec i i0) as [Hlt|Hle].
    - exact (Hnf i ltac:(lia) Hf).
    - destruct (Z.eq_dec i0 i) as [->|Hne].
      + exact (free_not_key t _ k Hf Hq).
      + exact (other_not_key t _ k (Hpre i0 ltac:(lia)) Hq). }
  split; [apply table_ok_write; exact Hok|]. split.
  - intros q k0 Hq. cbn [write _m].
    destruct (key_at_write_inv t _ q k k0 v Hok Hp Hq) as [[-> ->]|[_ Hq0]].
    + exists i. split; [exact Hi|]. split; [reflexivity|].
      intros j Hj. apply write_keeps_occupied; try assumption.
      * apply pos_range. exact Hm.
      * apply (other_not_free t _ k). apply Hpre. exact Hj.
    + destruct (Hpk q k0 Hq0) as (i0 & Hi0 & -> & Hnf).
      exists i0. split; [exact Hi0|]. split; [reflexivity|].
      intros j Hj. apply write_keeps_occupied; try assumption.
      * apply pos_range. exact Hm.
      * apply Hnf. exact Hj.
  - intros k0. apply unique_write_free; [exact Hok | exact Hf | apply Hnd | right; exact Habs].
Qed.

Lemma init_packed size : packed (@HashTable_init V size).
Proof. intros p k Hk. exfalso. exact (init_absent size k p Hk). Qed.

Lemma init_no_dup size : no_dup (@HashTable_init V size).
Proof. intros k. apply absent_unique, init_absent. Qed.

Lemma plain_run_inv (ops : list (op V)) t rs t' :
  forallb plain_op ops = true ->
  table_ok t -> packed t -> no_dup t ->
  run_ops ops t = Ok (rs, t') ->
  table_ok t' /\ packed t' /\ no_dup t'.
Proof.
  revert t rs. induction ops as [|o ops IH]; intros t rs Hplain Hok Hpk Hnd H.
  - cbn in H. injection H as _ <-. auto.
  - cbn [forallb] in Hplain. apply andb_prop in Hplain. destruct Hplain as [Ho Hops].
    cbn [run_ops] in H. apply bind_inv in H. destruct H as (r1 & t1 & H1 & H).
    apply bind_inv in H. destruct H as (rs1 & t2 & H2 & H). injection H as _ <-.
    destruct o as [k v|k v|k|k]; try discriminate Ho; cbn [run_op] in H1;
      apply bind_inv in H1; destruct H1 as (a & t0 & H1 & Hret); injection Hret as _ <-.
    + destruct (packed_insert t k v a t0 Hok Hpk Hnd H1) as (Hok1 & Hpk1 & Hnd1).
      eapply IH; eassumption.
    + destruct (retrieve_inv t k Hok) as (x & E). rewrite E in H1.
      injection H1 as _ <-. eapply IH; eassumption.
Qed.
End PlainRuns.

(** X16. In a run of [insert] and [retrieve] calls only, on a fresh table
    of any capacity, no key is ever held by two slots, and [insert]
    returns [-1] for every key that is in the table: without a [delete] or
    an [insert_brent], plain insertion always sees a key that is present. *)
Theorem plain_runs_have_no_duplicates {V}
  (size : Z) (ops : list (op V)) (rs : list (retval V)) (t : HashTable V) :
  forallb plain_op ops = true ->
  run_ops ops (HashTable_init size) = Ok (rs, t) ->
  no_dup t /\
  forall k v, ~ absent t k -> insert k v t = Ok (-1, t).
Proof.
  intros Hplain H.
  destruct (plain_run_inv ops (HashTable_init size) rs t Hplain
              (init_table_ok size) (init_packed size) (init_no_dup size) H)
    as (Hok & Hpk & Hnd).
  split; [exact Hnd|]. intros k v. apply packed_insert_present; assumption.
Qed.

Lemma plain_runs_have_no_duplicates_witness :
  forallb plain_op [OpInsert 0 (PyVal 1%nat); OpInsert 7 (PyVal 2%nat);
                    OpRetrieve 7; OpInsert 7 (PyVal 3%nat)] = true /\
  run_ops [OpInsert 0 (PyVal 1%nat); OpInsert 7 (PyVal 2%nat);
           OpRetrieve 7; OpInsert 7 (PyVal 3%nat)] (HashTable_init 7)
  = Ok ([RInt 0; RInt 4; RObj (PyVal 2%nat); RInt (-1)], ahead_table) /\
  no_dup ahead_table.
Proof.
  split; [reflexivity|]. split; [reflexivity|].
  apply (plain_runs_have_no_duplicates 7
           [OpInsert 0 (PyVal 1%nat); OpInsert 7 (PyVal 2%nat);
            OpRetrieve 7; OpInsert 7 (PyVal 3%nat)]
           [RInt 0; RInt 4; RObj (PyVal 2%nat); RInt (-1)]
           ahead_table eq_refl eq_refl).
Defined.

(** ** A key one probe ahead of [insert_brent] *)

(** X17. [insert_brent] compares the key only with the slot of the current
    probe.  When it arrives at a slot that holds another key while [k]
    itself sits in the next probe position of [k] and the occupant's next
    position is free, it relocates the occupant and writes [(k, v)] there,
    returning that index instead of [-1]: two slots hold [k] afterwards.
    No [delete] is involved. *)
Theorem insert_brent_misses_key_one_probe_ahead {V}
  (t : HashTable V) (k : Z) (v w : object V) (i existing : Z) (ev : object V) :
  table_ok t -> 0 <= i < _m t ->
  (forall j, 0 <= j < i -> brent_cont t k j) ->
  slot_at t (pos (_m t) k i) = Some (Occupied existing ev) -> existing <> k ->
  slot_at t ((pos (_m t) k i - h2 k (_m t)) mod _m t) = Some (Occupied k w) ->
  free_at t ((pos (_m t) k i - h2 existing (_m t)) mod _m t) ->
  exists t',
    insert_brent k v t = Ok (pos (_m t) k i, t') /\
    slot_at t' (pos (_m t) k i) = Some (Occupied k v) /\
    slot_at t' ((pos (_m t) k i - h2 k (_m t)) mod _m t) = Some (Occupied k w) /\
    pos (_m t) k i <> (pos (_m t) k i - h2 k (_m t)) mod _m t /\
    ~ unique_key t' k.
Proof.
  intros Hok Hi Hpre Hs Hne Hahead Hf2. assert (Hm : 0 < _m t) by lia.
  set (hash := pos (_m t) k i) in *.
  set (alt1 := (hash - h2 k (_m t)) mod _m t) in *.
  set (alt2 := (hash - h2 existing (_m t)) mod _m t) in *.
  assert (Hp : 0 <= hash < _m t) by (apply pos_range; exact Hm).
  assert (Hp2 : 0 <= alt2 < _m t) by (apply Z.mod_pos_bound; exact Hm).
  assert (Hd1 : hash <> alt1).
  { intros E. rewrite <- E in Hahead. rewrite Hs in Hahead.
    injection Hahead as Hk _. exact (Hne Hk). }
  assert (Hd2 : alt2 <> alt1) by (eapply free_occupied_ne; eassumption).
  assert (Hnf1 : ~ free_at t alt1) by (apply (key_not_free t alt1 k); exists w; exact Hahead).
  assert (E : insert_brent k v t
              = Ok (hash, write (write t alt2 existing ev) hash k v)).
  { rewrite (insert_brent_reaches t k v i Hok) by (lia || assumption).
    rewrite (range_cons i) by lia.
    eapply insert_brent_loop_relocate; eassumption. }
  assert (Hs1 : slot_at (write (write t alt2 existing ev) hash k v) hash
                = Some (Occupied k v)).
  { apply slot_at_write_eq; [apply table_ok_write; exact Hok | exact Hp]. }
  assert (Hs2 : slot_at (write (write t alt2 existing ev) hash k v) alt1
                = Some (Occupied k w)).
  { rewrite !slot_at_write_ne by lia. exact Hahead. }
  eexists. split; [exact E|]. split; [exact Hs1|]. split; [exact Hs2|].
  split; [exact Hd1|].
  intros Hu. apply Hd1. apply Hu; [exists v; exact Hs1 | exists w; exact Hs2].
Qed.

Lemma insert_brent_misses_key_one_probe_ahead_witness :
  table_ok ahead_table /\
  reachable ahead_table /\
  insert_brent 7 (PyVal 3%nat) ahead_table
  = Ok (0, write (write ahead_table 6 0 (PyVal 1%nat)) 0 7 (PyVal 3%nat)) /\
  exists t',
    insert_brent 7 (PyVal 3%nat) ahead_table = Ok (pos 7 7 0, t') /\
    slot_at t' (pos 7 7 0) = Some (Occupied 7 (PyVal 3%nat)) /\
    slot_at t' ((pos 7 7 0 - h2 7 7) mod 7) = Some (Occupied 7 (PyVal 2%nat)) /\
    pos 7 7 0 <> (pos 7 7 0 - h2 7 7) mod 7 /\
    ~ unique_key t' 7.
Proof.
  split; [reflexivity|]. split.
  { exists 7, [OpInsert 0 (PyVal 1%nat); OpInsert 7 (PyVal 2%nat)], [RInt 0; RInt 4].
    reflexivity. }
  split; [reflexivity|].
  apply (insert_brent_misses_key_one_probe_ahead
           ahead_table 7 (PyVal 3%nat) (PyVal 2%nat) 0 0 (PyVal 1%nat) eq_refl).
  - cbn. lia.
  - intros j Hj. lia.
  - reflexivity.
  - lia.
  - reflexivity.
  - exists Empty. split; reflexivity.
Defined.

(** ** A fresh table and the home slot *)

Lemma pos_home (m k : Z) : 0 < m -> pos m k 0 = k mod m.
Proof.
  intros Hm. unfold pos, h1. rewrite Z.mul_0_l, Z.sub_0_r. apply Z.mod_mod. lia.
Qed.

Lemma init_slot_empty {V} (size p : Z) :
  0 <= p < size -> slot_at (@HashTable_init V size) p = Some Empty.
Proof.
  intros Hp. unfold slot_at, HashTable_init. cbn [table].
  destruct (Z.ltb_spec p 0); [lia|].
  assert (Hlt : (Z.to_nat p < Z.to_nat size)%nat) by lia.
  rewrite (lookup_replicate_2 _ _ _ Hlt). reflexivity.
Qed.

(** X18. [HashTable(size)] has [size] slots, all Empty: on it every
    [retrieve] returns [None] and every [delete] returns [-1]; and on any
    table whose home slot [k mod m] of [k] is free, as on a fresh one,
    [insert(k, v)] and [insert_brent(k, v)] both write the entry there and
    return [k mod m]. *)
Theorem fresh_table_and_home_slot {V} (size : Z) (k : Z) (v : object V) :
  0 < size ->
  table_ok (@HashTable_init V size) /\
  (forall p, 0 <= p < size -> slot_at (@HashTable_init V size) p = Some Empty) /\
  retrieve k (@HashTable_init V size) = Ok (PyNone, HashTable_init size) /\
  delete k (@HashTable_init V size) = Ok (-1, HashTable_init size) /\
  (forall t : HashTable V, table_ok t -> _m t = size -> free_at t (k mod size) ->
     insert k v t = Ok (k mod size, write t (k mod size) k v) /\
     insert_brent k v t = Ok (k mod size, write t (k mod size) k v)).
Proof.
  intros Hsize.
  pose proof (get_position_absent (@HashTable_init V size) k
                (init_table_ok size) (init_absent size k)) as Hg.
  split; [apply init_table_ok|]. split; [intros p; apply init_slot_empty|].
  split; [apply retrieve_none; exact Hg|]. split; [apply delete_none; exact Hg|].
  intros t Hok Hm Hf. rewrite <- (pos_home size k Hsize) in *. rewrite <- Hm in *.
  split.
  - unfold insert, bind, get_m. rewrite (range_cons 0) by lia.
    apply insert_loop_free; [assumption | lia | assumption].
  - unfold insert_brent, bind, get_m. rewrite (range_cons 0) by lia.
    apply insert_brent_loop_free; [assumption | lia | assumption].
Qed.

Lemma fresh_table_and_home_slot_witness :
  0 < 7 /\
  insert 23 (PyVal 1%nat) (HashTable_init 7)
  = Ok (23 mod 7, write (HashTable_init 7) (23 mod 7) 23 (PyVal 1%nat)).
Proof.
  split; [lia|].
  destruct (fresh_table_and_home_slot 7 23 (PyVal 1%nat) ltac:(lia))
    as (_ & Hempty & _ & _ & Hhome).
  apply (Hhome (HashTable_init 7) eq_refl eq_refl).
  exists Empty. split; [apply Hempty; split; [discriminate | reflexivity] | reflexivity].
Defined.
